(** * Latest-wins matrix server: the cancellation registry, the row-parallel
    multiplier and the request handler of [concurrency/v2/main.go] (and of its
    predecessor without persistence), embedded as interleaved state machines.

    Goroutines are modelled by program counters; a schedule is the list of
    goroutines in the order the runtime lets each of them take one step.  A
    step of a goroutine that is blocked or has returned leaves the state as it
    is; a step that would index out of range panics ([None]).  A critical
    section of [mu] is one step, and so is one iteration of the [k] loop: a
    row of [result] is written by its own goroutine only, [a] and [b] are only
    read.  Lengths and indices are [nat] ([make] panics on a negative length,
    and the handlers call the multiplier with a size from 1 to 2000); matrix
    entries and parsed sizes are [int]s, that is [Z] with the wrap-around
    written out. *)

From Stdlib Require Import ZArith Lia String Ascii DecimalString DecimalPos.
From stdpp Require Import base tactics option list gmap strings.

(** ** Go's [int] on a 64-bit host *)

Module goint.

Definition intSize : Z := 64.
Definition MaxInt : Z := 2 ^ (intSize - 1) - 1.
Definition MinInt : Z := - 2 ^ (intSize - 1).

(** Two's complement wrap-around of an exact result. *)
Definition wrap (z : Z) : Z :=
  ((z + 2 ^ (intSize - 1)) mod 2 ^ intSize - 2 ^ (intSize - 1))%Z.

Definition add (x y : Z) : Z := wrap (x + y).
Definition mul (x y : Z) : Z := wrap (x * y).

End goint.

(** ** The library functions the handler calls

    [strconv.Atoi], [net.SplitHostPort] and the two [fmt] verbs in use,
    transcribed from the Go standard library for a 64-bit host.  A Go string
    is a sequence of bytes, as [string] is here. *)

Definition nl : string := String "010"%char EmptyString.

Fixpoint str_take (n : nat) (s : string) : string :=
  match n, s with
  | S n', String c s' => String c (str_take n' s')
  | _, _ => EmptyString
  end.

Fixpoint str_drop (n : nat) (s : string) : string :=
  match n, s with
  | S n', String _ s' => str_drop n' s'
  | _, _ => s
  end.

Global Arguments str_take : simpl nomatch.
Global Arguments str_drop : simpl nomatch.

(** [s[lo:hi]] *)
Definition slice (lo hi : nat) (s : string) : string := str_take (hi - lo) (str_drop lo s).

(** [bytealg.IndexByteString]: the first index of [c], if any. *)
Fixpoint index_byte (c : ascii) (s : string) : option nat :=
  match s with
  | EmptyString => None
  | String x s' => if Ascii.eqb x c then Some 0 else S <$> index_byte c s'
  end.

(** [bytealg.LastIndexByteString]: the last index of [c], if any. *)
Fixpoint last_index_byte (c : ascii) (s : string) : option nat :=
  match s with
  | EmptyString => None
  | String x s' =>
      match last_index_byte c s' with
      | Some i => Some (S i)
      | None => if Ascii.eqb x c then Some 0 else None
      end
  end.

Module strconv.

Inductive NumError : Type := ErrSyntax | ErrRange.

Definition is_digit (c : ascii) : bool :=
  (48 <=? nat_of_ascii c) && (nat_of_ascii c <=? 57).

Definition digit (c : ascii) : Z := Z.of_nat (nat_of_ascii c) - 48.

Definition is_sign (c : ascii) : bool := Ascii.eqb c "+" || Ascii.eqb c "-".

(** The digit loop of [Atoi]'s fast path: [None] is the syntax error. *)
Fixpoint small_digits (s : string) (n : Z) : option Z :=
  match s with
  | EmptyString => Some n
  | String ch s' =>
      if is_digit ch then small_digits s' (n * 10 + digit ch) else None
  end.

Definition maxUint64 : Z := 2 ^ 64 - 1.

(** The loop of [ParseUint(s, 10, 64)]; it returns at the first digit that
    overflows, before looking at the bytes after it. *)
Fixpoint parse_uint_loop (s : string) (n : Z) : Z * option NumError :=
  match s with
  | EmptyString => (n, None)
  | String c s' =>
      if is_digit c then
        if (maxUint64 / 10 + 1 <=? n)%Z then (maxUint64, Some ErrRange)
        else
          let n1 := (n * 10 + digit c)%Z in
          if (maxUint64 <? n1)%Z then (maxUint64, Some ErrRange)
          else parse_uint_loop s' n1
      else (0%Z, Some ErrSyntax)
  end.

Definition ParseUint (s : string) : Z * option NumError :=
  match s with
  | EmptyString => (0%Z, Some ErrSyntax)
  | _ => parse_uint_loop s 0
  end.

(** [ParseInt(s, 10, 0)]: on a range error the value is the largest
    magnitude of the sign. *)
Definition ParseInt (s : string) : Z * option NumError :=
  match s with
  | EmptyString => (0%Z, Some ErrSyntax)
  | String c s' =>
      let neg := Ascii.eqb c "-" in
      let '(un, err) := ParseUint (if is_sign c then s' else s) in
      match err with
      | Some ErrSyntax => (0%Z, Some ErrSyntax)
      | _ =>
          let cutoff := (2 ^ 63)%Z in
          if negb neg && (cutoff <=? un)%Z then ((cutoff - 1)%Z, Some ErrRange)
          else if neg && (cutoff <? un)%Z then ((- cutoff)%Z, Some ErrRange)
          else ((if neg then - un else un)%Z, None)
      end
  end.

Definition Atoi (s : string) : Z * option NumError :=
  let sLen := String.length s in
  if (0 <? sLen) && (sLen <? 19) then
    match s with
    | EmptyString => (0%Z, Some ErrSyntax)
    | String c s' =>
        let digits := if is_sign c then s' else s in
        if is_sign c && (String.length digits <? 1) then (0%Z, Some ErrSyntax)
        else
          match small_digits digits 0 with
          | None => (0%Z, Some ErrSyntax)
          | Some n => ((if Ascii.eqb c "-" then - n else n)%Z, None)
          end
    end
  else ParseInt s.

End strconv.

Module net.

(** [hostport[0] == c], false on the empty string. *)
Definition first_byte_is (c : ascii) (s : string) : bool :=
  match s with
  | String x _ => Ascii.eqb x c
  | EmptyString => false
  end.

(** [SplitHostPort]: [None] stands for any of its address errors. *)
Definition SplitHostPort (hostport : string) : option (string * string) :=
  match last_index_byte ":" hostport with
  | None => None
  | Some i =>
      '(host, j, k) ←
        (if first_byte_is "[" hostport then
           match index_byte "]" hostport with
           | None => None
           | Some e =>
               if decide (e + 1 = String.length hostport) then None
               else if decide (e + 1 = i) then Some (slice 1 e hostport, 1, e + 1)
               else None
           end
         else
           let host := slice 0 i hostport in
           match index_byte ":" host with
           | Some _ => None
           | None => Some (host, 0, 0)
           end);
      match index_byte "[" (str_drop j hostport) with
      | Some _ => None
      | None =>
          match index_byte "]" (str_drop k hostport) with
          | Some _ => None
          | None => Some (host, str_drop (i + 1) hostport)
          end
      end
  end.

End net.

Module fmt.

(** The verb [%d] on an [int]. *)
Definition d (z : Z) : string := NilZero.string_of_int (Z.to_int z).

Fixpoint join (sep : string) (l : list string) : string :=
  match l with
  | [] => EmptyString
  | [x] => x
  | x :: l' => x +:+ sep +:+ join sep l'
  end.

(** The verb [%v] on a [[]int]: the elements in brackets, a space between. *)
Definition v (row : list Z) : string := "[" +:+ join " " (d <$> row) +:+ "]".

End fmt.

(** ** The multiplier: [multiplyRow] and [multiplyMatricesParallel] *)

(** [[][]int]. *)
Abbreviation matrix := (list (list Z)).

(** [make([][]int, size)] with every row [make([]int, size)]. *)
Definition make_matrix (size : nat) : matrix := replicate size (replicate size 0%Z).

(** Program points of one [multiplyRow] goroutine: at the [select] of column
    [j] (the loop test [j < size] included), inside the [k] loop of column
    [j], and after its return ([wg.Done] has run). *)
Inductive pc : Type :=
| AtSelect (j : nat)
| InLoop (j k : nat)
| Returned.

Global Instance pc_eq_dec : EqDecision pc.
Proof. solve_decision. Defined.

(** One step of [multiplyRow(ctx, a, b, result, row, size, wg)]; [done] tells
    whether [ctx.Done()] is closed when the step is taken. *)
Definition multiplyRow_step (done : bool) (a b : matrix) (row size : nat)
    (result : matrix) (p : pc) : option (matrix * pc) :=
  match p with
  | AtSelect j =>
      if decide (j < size) then
        if done then Some (result, Returned) else Some (result, InLoop j 0)
      else Some (result, Returned)
  | InLoop j k =>
      if decide (k < size) then
        ra ← a !! row; x ← ra !! k;
        rb ← b !! k; y ← rb !! j;
        rr ← result !! row; acc ← rr !! j;
        Some (<[row := <[j := goint.add acc (goint.mul x y)]> rr]> result,
              InLoop j (S k))
      else Some (result, AtSelect (S j))
  | Returned => Some (result, Returned)
  end.

(** The shared [result] and the program counters of the row goroutines. *)
Record mstate : Type := MState { m_result : matrix; m_tasks : list pc }.

(** [result] allocated and one goroutine spawned per row. *)
Definition spawn (size : nat) : mstate :=
  MState (make_matrix size) (replicate size (AtSelect 0)).

(** The scheduler lets goroutine [row] take a step. *)
Definition run_task (done : bool) (a b : matrix) (size row : nat)
    (m : mstate) : option mstate :=
  match m_tasks m !! row with
  | None => Some m
  | Some p =>
      '(r, p') ← multiplyRow_step done a b row size (m_result m) p;
      Some (MState r (<[row := p']> (m_tasks m)))
  end.

Definition is_returned (p : pc) : bool :=
  match p with Returned => true | _ => false end.

(** [wg.Wait()] returns once every goroutine has called [wg.Done]. *)
Definition waited (m : mstate) : bool := forallb is_returned (m_tasks m).

(** A call of [multiplyMatricesParallel] seen from outside: the context may be
    cancelled at any moment by whoever holds its cancel function. *)
Inductive mevent : Type :=
| Cancel
| Run (row : nat).

Global Instance mevent_eq_dec : EqDecision mevent.
Proof. solve_decision. Defined.

Record msys : Type := MSys { ctx_done : bool; work : mstate }.

Definition mstep (a b : matrix) (size : nat) (ev : mevent) (s : msys) : option msys :=
  match ev with
  | Cancel => Some (MSys true (work s))
  | Run row => m ← run_task (ctx_done s) a b size row (work s); Some (MSys (ctx_done s) m)
  end.

Fixpoint mrun (a b : matrix) (size : nat) (sched : list mevent) (s : msys) : option msys :=
  match sched with
  | [] => Some s
  | ev :: sched' => s' ← mstep a b size ev s; mrun a b size sched' s'
  end.

Inductive call_result : Type :=
| Panicked
| Waiting
| Result (r : matrix).

(** [multiplyMatricesParallel(ctx, a, b, size)] under the schedule [sched],
    entered with a context that is not cancelled yet. *)
Definition multiplyMatricesParallel (sched : list mevent) (a b : matrix)
    (size : nat) : call_result :=
  match mrun a b size sched (MSys false (spawn size)) with
  | None => Panicked
  | Some s => if waited (work s) then Result (m_result (work s)) else Waiting
  end.

(** [m[i][j]], read as 0 outside the matrix (used in statements only). *)
Definition cell (m : matrix) (i j : nat) : Z := (m !!! i) !!! j.

(** The reference product, as the specification words it: the triple loop
    [r[i][j] += a[i][k] * b[k][j]] run sequentially in native arithmetic. *)
Fixpoint dot_upto (a b : matrix) (i j k : nat) : Z :=
  match k with
  | 0 => 0%Z
  | S k' => goint.add (dot_upto a b i j k')
                      (goint.mul (cell a i k') (cell b k' j))
  end.

Definition reference_product (a b : matrix) (size : nat) : matrix :=
  (λ i, (λ j, dot_upto a b i j size) <$> seq 0 size) <$> seq 0 size.

(** The exact sum of products, before any wrap-around. *)
Fixpoint exact_dot (a b : matrix) (i j k : nat) : Z :=
  match k with
  | 0 => 0%Z
  | S k' => (exact_dot a b i j k' + cell a i k' * cell b k' j)%Z
  end.

Definition square (size : nat) (m : matrix) : Prop :=
  length m = size ∧ Forall (λ r, length r = size) m.

(** What row [i] of [result] holds while its goroutine is at [p]: the columns
    before the current one are finished dot products, the current one is the
    partial sum of the [k] loop, the columns after it are still zero. *)
Definition done_cols (a b : matrix) (size i c : nat) : list Z :=
  (λ j, dot_upto a b i j size) <$> seq 0 c.

Definition row_at (done : bool) (a b : matrix) (size i : nat) (p : pc)
    (row : list Z) : Prop :=
  match p with
  | AtSelect j =>
      j ≤ size ∧ row = done_cols a b size i j ++ replicate (size - j) 0%Z
  | InLoop j k =>
      j < size ∧ k ≤ size ∧
      row = done_cols a b size i j ++ dot_upto a b i j k :: replicate (size - S j) 0%Z
  | Returned =>
      ∃ c, c ≤ size ∧ (c < size → done = true) ∧
           row = done_cols a b size i c ++ replicate (size - c) 0%Z
  end.

Definition minv (done : bool) (a b : matrix) (size : nat) (m : mstate) : Prop :=
  length (m_tasks m) = size ∧ length (m_result m) = size ∧
  ∀ i p, m_tasks m !! i = Some p →
         ∃ row, m_result m !! i = Some row ∧ row_at done a b size i p row.

(** Steps a goroutine at [p] still takes when the context stays open. *)
Definition steps_left (size : nat) (p : pc) : nat :=
  match p with
  | AtSelect j => (size - j) * (size + 2) + 1
  | InLoop j k => (size - k) + 1 + (size - S j) * (size + 2) + 1
  | Returned => 0
  end.

(** How many turns the schedule gives to goroutine [row]. *)
Fixpoint turns (row : nat) (sched : list mevent) : nat :=
  match sched with
  | [] => 0
  | Cancel :: sched' => turns row sched'
  | Run r :: sched' => (if Nat.eqb r row then 1 else 0) + turns row sched'
  end.

(** ** The registry and the request handler *)

(** The two handlers of the repository: [V2] is [concurrency/v2/main.go],
    [V1] the [main.go] without the database, which tests the oversize gate
    before it defaults the size.  They differ in nothing else but the call of
    [storeRequestInfo]. *)
Inductive version : Type := V1 | V2.

(** Only [V2] calls [storeRequestInfo] before it computes. *)
Definition persists (v : version) : bool :=
  match v with V1 => false | V2 => true end.

(** What a request brings, and what the environment answers while it is
    served: the values [rand.Intn(100)] returns for the cells of [a] and [b],
    whether [storeRequestInfo] returns an error, and the milliseconds
    [time.Since(start)] measures. *)
Record request : Type := Request {
  RemoteAddr : string;
  size_param : string;
  intn_a : nat → nat → Z;
  intn_b : nat → nat → Z;
  store_fails : bool;
  elapsed_ms : Z
}.

(** The [http.ResponseWriter]: status code and the body written so far. *)
Record response : Type := Response { status : nat; body : string }.

Definition extractIP (remoteAddr : string) : string :=
  match net.SplitHostPort remoteAddr with
  | Some (ip, _) => ip
  | None => remoteAddr
  end.

(** [matrix[i][j] = rand.Intn(100)]: [intn i j] is what the call returned. *)
Definition generateMatrix (intn : nat → nat → Z) (size : nat) : matrix :=
  (λ i, (λ j, intn i j) <$> seq 0 size) <$> seq 0 size.

(** Program points of one [handler] goroutine: before
    [cancelPreviousRequest], before it stores its cancel function, before it
    parses the size, blocked in the [select] of the oversize branch, inside
    [multiplyMatricesParallel] (with the state of that call), before the final
    [select], and returned. *)
Inductive hpc : Type :=
| AtSupersede
| AtRegister
| AtSizing
| AwaitingCancel
| Computing (matrixSize : Z) (a b : matrix) (m : mstate)
| AtReport (matrixSize : Z) (result : matrix)
| Finished.

Record job : Type := Job { j_req : request; j_pc : hpc; j_resp : response }.

(** The process: the map [activeRequests] (a cancel function is named by the
    job whose context it cancels), the contexts whose [Done] channel is
    closed, and the handler goroutines in order of arrival. *)
Record server : Type := Server {
  activeRequests : gmap string nat;
  cancelled : gset nat;
  jobs : list job
}.

Definition init : server := Server ∅ ∅ [].

(** [cancelPreviousRequest(ip)], one critical section of [mu]. *)
Definition cancelPreviousRequest (ip : string) (st : server) : server :=
  match activeRequests st !! ip with
  | Some cancelFunc =>
      Server (delete ip (activeRequests st)) ({[cancelFunc]} ∪ cancelled st) (jobs st)
  | None => st
  end.

(** [mu.Lock(); activeRequests[ip] = cancel; mu.Unlock()] *)
Definition register (ip : string) (cancel : nat) (st : server) : server :=
  Server (<[ip := cancel]> (activeRequests st)) (cancelled st) (jobs st).

Inductive sized : Type :=
| Oversize
| Sized (matrixSize : Z).

(** Parsing, defaulting and the gate, in the order of [V2]. *)
Definition sizing_v2 (matrixSizeParam : string) : sized :=
  let '(matrixSize, err) := strconv.Atoi matrixSizeParam in
  let matrixSize :=
    if bool_decide (err ≠ None) || (matrixSize <=? 0)%Z then 100%Z else matrixSize in
  if (2000 <? matrixSize)%Z then Oversize else Sized matrixSize.

(** The same in the order of [V1]: the gate reads what [Atoi] returned. *)
Definition sizing_v1 (matrixSizeParam : string) : sized :=
  let '(matrixSize, err) := strconv.Atoi matrixSizeParam in
  if (2000 <? matrixSize)%Z then Oversize
  else Sized (if bool_decide (err ≠ None) || (matrixSize <=? 0)%Z then 100%Z
              else matrixSize).

Definition sizing (v : version) : string → sized :=
  match v with V1 => sizing_v1 | V2 => sizing_v2 end.

Definition msg_large : string := "Request was cancelled due to large number" +:+ nl.
Definition msg_cancelled : string := "Request was cancelled" +:+ nl.
Definition msg_store : string := "Failed to store request info" +:+ nl.

(** The three [Fprintf]s of the success branch and the loop over the rows. *)
Definition write_success (w : string) (matrixSize duration : Z) (result : matrix) : string :=
  let w := w +:+ "Matrix multiplication (size: " +:+ fmt.d matrixSize +:+
               ") completed in " +:+ fmt.d duration +:+ " milliseconds" +:+ nl in
  let w := w +:+ "Resulting Matrix:" +:+ nl in
  foldl (λ w row, w +:+ fmt.v row +:+ nl) w result.

Definition write (msg : string) (w : response) : response :=
  Response (status w) (body w +:+ msg).

Definition set_job (j : nat) (jb : job) (st : server) : server :=
  Server (activeRequests st) (cancelled st) (<[j := jb]> (jobs st)).

Definition ctx_is_done (j : nat) (st : server) : bool := bool_decide (j ∈ cancelled st).

(** One step of the handler goroutine [j] with request [r] and writer [w]. *)
Definition handler_step (v : version) (j : nat) (jb : job) (st : server) : server :=
  let r := j_req jb in
  let w := j_resp jb in
  let ip := extractIP (RemoteAddr r) in
  match j_pc jb with
  | AtSupersede => set_job j (Job r AtRegister w) (cancelPreviousRequest ip st)
  | AtRegister => set_job j (Job r AtSizing w) (register ip j st)
  | AtSizing =>
      match sizing v (size_param r) with
      | Oversize => set_job j (Job r AwaitingCancel w) st
      | Sized matrixSize =>
          if persists v && store_fails r then
            set_job j (Job r Finished (Response 500 (body w +:+ msg_store))) st
          else
            let a := generateMatrix (intn_a r) (Z.to_nat matrixSize) in
            let b := generateMatrix (intn_b r) (Z.to_nat matrixSize) in
            set_job j (Job r (Computing matrixSize a b (spawn (Z.to_nat matrixSize))) w) st
      end
  | AwaitingCancel =>
      if ctx_is_done j st then set_job j (Job r Finished (write msg_large w)) st
      else st
  | Computing matrixSize a b m =>
      if waited m then set_job j (Job r (AtReport matrixSize (m_result m)) w) st
      else st
  | AtReport matrixSize result =>
      if ctx_is_done j st then set_job j (Job r Finished (write msg_cancelled w)) st
      else
        set_job j
          (Job r Finished
             (Response (status w) (write_success (body w) matrixSize (elapsed_ms r) result)))
          st
  | Finished => st
  end.

(** One step of row goroutine [row] of the multiplier call of job [j]. *)
Definition row_step (j row : nat) (jb : job) (st : server) : option server :=
  match j_pc jb with
  | Computing matrixSize a b m =>
      m' ← run_task (ctx_is_done j st) a b (Z.to_nat matrixSize) row m;
      Some (set_job j (Job (j_req jb) (Computing matrixSize a b m') (j_resp jb)) st)
  | _ => Some st
  end.

Inductive event : Type :=
| Accept (r : request)
| Handler (j : nat)
| Row (j row : nat).

Definition step (v : version) (ev : event) (st : server) : option server :=
  match ev with
  | Accept r =>
      Some (Server (activeRequests st) (cancelled st)
              (jobs st ++ [Job r AtSupersede (Response 200 EmptyString)]))
  | Handler j =>
      match jobs st !! j with
      | Some jb => Some (handler_step v j jb st)
      | None => Some st
      end
  | Row j row =>
      match jobs st !! j with
      | Some jb => row_step j row jb st
      | None => Some st
      end
  end.

Fixpoint run (v : version) (sched : list event) (st : server) : option server :=
  match sched with
  | [] => Some st
  | ev :: sched' => st' ← step v ev st; run v sched' st'
  end.

(** ** Transitions and invariants of the handler goroutines *)

Definition key (jb : job) : string := extractIP (RemoteAddr (j_req jb)).

(** The job has stored its cancel function in [activeRequests]. *)
Definition has_registered (p : hpc) : bool :=
  match p with AtSupersede | AtRegister => false | _ => true end.

Definition fresh : response := Response 200 EmptyString.

(** What one step of the process does to one job; [done] is the state of the
    job's own context when the step is taken. *)
Inductive job_trans (v : version) (done : bool) : job → job → Prop :=
| T_stay jb : job_trans v done jb jb
| T_supersede r w : job_trans v done (Job r AtSupersede w) (Job r AtRegister w)
| T_register r w : job_trans v done (Job r AtRegister w) (Job r AtSizing w)
| T_gate r w :
    sizing v (size_param r) = Oversize →
    job_trans v done (Job r AtSizing w) (Job r AwaitingCancel w)
| T_store_failed r w n :
    sizing v (size_param r) = Sized n → persists v && store_fails r = true →
    job_trans v done (Job r AtSizing w)
      (Job r Finished (Response 500 (body w +:+ msg_store)))
| T_compute r w n :
    sizing v (size_param r) = Sized n → persists v && store_fails r = false →
    job_trans v done (Job r AtSizing w)
      (Job r (Computing n (generateMatrix (intn_a r) (Z.to_nat n))
                          (generateMatrix (intn_b r) (Z.to_nat n))
                          (spawn (Z.to_nat n))) w)
| T_large r w :
    done = true →
    job_trans v done (Job r AwaitingCancel w) (Job r Finished (write msg_large w))
| T_row r w n a b m m' row :
    run_task done a b (Z.to_nat n) row m = Some m' →
    job_trans v done (Job r (Computing n a b m) w) (Job r (Computing n a b m') w)
| T_waited r w n a b m :
    waited m = true →
    job_trans v done (Job r (Computing n a b m) w) (Job r (AtReport n (m_result m)) w)
| T_cancelled r w n result :
    done = true →
    job_trans v done (Job r (AtReport n result) w)
      (Job r Finished (write msg_cancelled w))
| T_success r w n result :
    done = false →
    job_trans v done (Job r (AtReport n result) w)
      (Job r Finished
         (Response (status w) (write_success (body w) n (elapsed_ms r) result))).

(** The job computes a product of size [n]: it passed the gate, and the
    request was stored where the handler stores it. *)
Definition computes (v : version) (r : request) (n : Z) : Prop :=
  sizing v (size_param r) = Sized n ∧ persists v && store_fails r = false.

(** A result whose rows were each stopped at some column, and only by a
    cancelled context before the last one. *)
Definition partial_rows (done : bool) (a b : matrix) (size : nat) (result : matrix) : Prop :=
  length result = size ∧
  ∀ i, i < size →
       ∃ c, c ≤ size ∧ (c < size → done = true) ∧
            result !! i = Some (done_cols a b size i c ++ replicate (size - c) 0%Z).

(** The four responses of a finished job. *)
Definition reported (v : version) (done : bool) (jb : job) : Prop :=
  let r := j_req jb in
  (sizing v (size_param r) = Oversize ∧ done = true ∧
   j_resp jb = Response 200 msg_large) ∨
  (∃ n, sizing v (size_param r) = Sized n ∧ persists v && store_fails r = true ∧
        j_resp jb = Response 500 msg_store) ∨
  (∃ n, computes v r n ∧ done = true ∧ j_resp jb = Response 200 msg_cancelled) ∨
  (∃ n, computes v r n ∧
        j_resp jb =
          Response 200
            (write_success EmptyString n (elapsed_ms r)
               (reference_product (generateMatrix (intn_a r) (Z.to_nat n))
                                  (generateMatrix (intn_b r) (Z.to_nat n))
                                  (Z.to_nat n)))).

Definition job_inv (v : version) (done : bool) (jb : job) : Prop :=
  let r := j_req jb in
  match j_pc jb with
  | AtSupersede | AtRegister | AtSizing => j_resp jb = fresh
  | AwaitingCancel => sizing v (size_param r) = Oversize ∧ j_resp jb = fresh
  | Computing n a b m =>
      computes v r n ∧
      a = generateMatrix (intn_a r) (Z.to_nat n) ∧
      b = generateMatrix (intn_b r) (Z.to_nat n) ∧
      minv done a b (Z.to_nat n) m ∧ j_resp jb = fresh
  | AtReport n result =>
      computes v r n ∧
      partial_rows done (generateMatrix (intn_a r) (Z.to_nat n))
                        (generateMatrix (intn_b r) (Z.to_nat n))
                        (Z.to_nat n) result ∧
      j_resp jb = fresh
  | Finished => reported v done jb
  end.

(** The invariant of the process: an entry of [activeRequests] names a job of
    that key which has registered, only registered jobs have a cancelled
    context, and every job is where its request and its context put it. *)
Definition sinv (v : version) (st : server) : Prop :=
  (∀ k c, activeRequests st !! k = Some c →
          ∃ jb, jobs st !! c = Some jb ∧ key jb = k ∧ has_registered (j_pc jb) = true) ∧
  (∀ c, c ∈ cancelled st →
        ∃ jb, jobs st !! c = Some jb ∧ has_registered (j_pc jb) = true) ∧
  (∀ j jb, jobs st !! j = Some jb → job_inv v (ctx_is_done j st) jb).

(** What one step of the process does to the registry and to the contexts:
    only a job's supersede step and its register step touch them. *)
Inductive shared_trans (st st' : server) (ev : event) : Prop :=
| S_same :
    activeRequests st' = activeRequests st → cancelled st' = cancelled st →
    shared_trans st st' ev
| S_supersede j jb :
    ev = Handler j → jobs st !! j = Some jb → j_pc jb = AtSupersede →
    jobs st' !! j = Some (Job (j_req jb) AtRegister (j_resp jb)) →
    activeRequests st' = activeRequests (cancelPreviousRequest (key jb) st) →
    cancelled st' = cancelled (cancelPreviousRequest (key jb) st) →
    shared_trans st st' ev
| S_register j jb :
    ev = Handler j → jobs st !! j = Some jb → j_pc jb = AtRegister →
    jobs st' !! j = Some (Job (j_req jb) AtSizing (j_resp jb)) →
    activeRequests st' = <[key jb := j]> (activeRequests st) →
    cancelled st' = cancelled st →
    shared_trans st st' ev.

(** The job is inside [multiplyMatricesParallel] or between its return and
    the final [select]. *)
Definition on_compute_path (p : hpc) : bool :=
  match p with Computing _ _ _ _ | AtReport _ _ => true | _ => false end.

(** One line of the matrix in the response: the row under [%v] and a newline. *)
Definition row_line (row : list Z) : string := fmt.v row +:+ nl.

Definition str_concat (l : list string) : string := foldr String.append EmptyString l.

Fixpoint count_byte (c : ascii) (s : string) : nat :=
  match s with
  | EmptyString => 0
  | String x s' => (if Ascii.eqb x c then 1 else 0) + count_byte c s'
  end.

(** ** Requests used in the examples *)

Definition req_first : request :=
  Request "10.0.0.1:5000" "1" (λ _ _, 2%Z) (λ _ _, 3%Z) false 7%Z.
Definition req_second : request :=
  Request "10.0.0.1:5001" "2" (λ i j, Z.of_nat (i + j)) (λ _ _, 1%Z) false 9%Z.
Definition req_early : request :=
  Request "10.0.0.1:4999" "1" (λ _ _, 5%Z) (λ _ _, 5%Z) false 3%Z.
Definition req_large : request :=
  Request "10.0.0.1:5002" "2001" (λ _ _, 0%Z) (λ _ _, 0%Z) false 0%Z.
Definition req_overflow : request :=
  Request "10.0.0.1:5003" "99999999999999999999" (λ _ _, 0%Z) (λ _ _, 0%Z) false 0%Z.

(** The first job has registered and parsed nothing yet. *)
Definition st_registered : server :=
  Server {[ "10.0.0.1" := 0 ]} ∅ [Job req_first AtSizing fresh].

(** One job alone on its key, up to its final check. *)
Definition sched_alone : list event :=
  [Accept req_first; Handler 0; Handler 0; Handler 0;
   Row 0 0; Row 0 0; Row 0 0; Row 0 0; Handler 0].

Definition st_at_report : server :=
  Eval vm_compute in default init (run V2 sched_alone init).

(** A job of size 2 whose context is cancelled by the supersede step of a
    second job of the same key while its first row is in its first column. *)
Definition sched_cancel_before : list event :=
  [Accept req_second; Handler 0; Handler 0; Handler 0; Row 0 0; Row 0 0; Row 0 0;
   Accept req_first].

Definition sched_cancel_mid : list event := sched_cancel_before ++ [Handler 1].

Definition st_cancel_before : server :=
  Eval vm_compute in default init (run V2 sched_cancel_before init).

Definition job_cancel_before : job :=
  Eval vm_compute in
    default (Job req_second AtSupersede fresh) (jobs st_cancel_before !! 0).

Definition sched_cancel_rest : list event :=
  [Row 0 0; Row 0 0; Row 0 1; Handler 0; Handler 0].

Definition st_cancel_mid : server :=
  Eval vm_compute in default init (run V2 sched_cancel_mid init).

Definition st_cancel_end : server :=
  Eval vm_compute in default init (run V2 sched_cancel_rest st_cancel_mid).

(** An oversize job alone on its key, parked at its [select]. *)
Definition st_parked : server :=
  Server {[ "10.0.0.1" := 0 ]} ∅ [Job req_large AwaitingCancel fresh].

Definition st_reported : server :=
  Eval vm_compute in default init (step V2 (Handler 0) st_at_report).

Definition req_next : request :=
  Request "10.0.0.1:5004" "1" (λ _ _, 4%Z) (λ _ _, 5%Z) false 8%Z.

(** The second job arrives while the first waits at its final check, and takes
    its supersede step only after the first has passed that check. *)
Definition sched_late_supersede : list event :=
  sched_alone ++
  [Accept req_next; Handler 0;
   Handler 1; Handler 1; Handler 1; Row 1 0; Row 1 0; Row 1 0; Row 1 0;
   Handler 1; Handler 1].

(** Both jobs take their supersede step before either has registered. *)
Definition sched_race : list event :=
  [Accept req_first; Accept req_next; Handler 0; Handler 1; Handler 0; Handler 1;
   Handler 0; Handler 1;
   Row 0 0; Row 1 0; Row 0 0; Row 1 0; Row 0 0; Row 1 0; Row 0 0; Row 1 0;
   Handler 0; Handler 1; Handler 0; Handler 1].

Definition success_first : response :=
  Response 200
    ("Matrix multiplication (size: 1) completed in 7 milliseconds" +:+ nl +:+
     "Resulting Matrix:" +:+ nl +:+ "[6]" +:+ nl).

Definition success_next : response :=
  Response 200
    ("Matrix multiplication (size: 1) completed in 8 milliseconds" +:+ nl +:+
     "Resulting Matrix:" +:+ nl +:+ "[20]" +:+ nl).

(** The responses of a job that did not succeed. *)
Definition not_served (v : version) (jb : job) : Prop :=
  j_resp jb = Response 200 msg_cancelled ∨
  j_resp jb = Response 200 msg_large ∨
  (persists v && store_fails (j_req jb) = true ∧ j_resp jb = Response 500 msg_store).

(** After the first job has reported, a second one of its key arrives,
    supersedes and registers. *)
Definition sched_after_report : list event := [Accept req_next; Handler 1; Handler 1].

Definition st_after_report : server :=
  Eval vm_compute in default init (run V2 sched_after_report st_reported).

(** Two jobs of one key supersede before either registers, so that the
    second registration overwrites the first; then a third job of the key
    arrives and supersedes. *)
Definition sched_overwritten : list event :=
  [Accept req_first; Accept req_next; Handler 0; Handler 1; Handler 0; Handler 1].

Definition st_overwritten : server :=
  Eval vm_compute in default init (run V2 sched_overwritten init).

Definition sched_third : list event := [Accept req_early; Handler 2; Handler 2].

Definition st_third : server :=
  Eval vm_compute in default init (run V2 sched_third st_overwritten).

(** A schedule that serves job [j] alone: its supersede, register and sizing
    steps, every row goroutine run to its end one after the other, the return
    of [wg.Wait] and the final check. *)
Definition row_turns (size : nat) : list nat :=
  flat_map (λ row, replicate (size * (size + 2) + 1) row) (seq 0 size).

Definition sched_serve (j size : nat) : list event :=
  [Handler j; Handler j; Handler j] ++ (Row j <$> row_turns size) ++
  [Handler j; Handler j].

(** The number a run of decimal digits denotes when read after [acc]. *)
Fixpoint uint_value (d : Decimal.uint) (acc : Z) : Z :=
  match d with
  | Decimal.Nil => acc
  | Decimal.D0 d => uint_value d (acc * 10 + 0)
  | Decimal.D1 d => uint_value d (acc * 10 + 1)
  | Decimal.D2 d => uint_value d (acc * 10 + 2)
  | Decimal.D3 d => uint_value d (acc * 10 + 3)
  | Decimal.D4 d => uint_value d (acc * 10 + 4)
  | Decimal.D5 d => uint_value d (acc * 10 + 5)
  | Decimal.D6 d => uint_value d (acc * 10 + 6)
  | Decimal.D7 d => uint_value d (acc * 10 + 7)
  | Decimal.D8 d => uint_value d (acc * 10 + 8)
  | Decimal.D9 d => uint_value d (acc * 10 + 9)
  end%Z.

(** Steps a goroutine at [p] still takes once the context is cancelled: the
    rest of the column it is in, the loop exit and the [select]. *)
Definition steps_left_cancelled (size : nat) (p : pc) : nat :=
  match p with
  | AtSelect _ => 1
  | InLoop _ k => (size - k) + 2
  | Returned => 0
  end.

(** A request whose storage fails, taken up to its sizing step by the
    handler that persists requests. *)
Definition req_unstored : request :=
  Request "10.0.0.1:5005" "3" (λ _ _, 1%Z) (λ _ _, 1%Z) true 0%Z.
Definition sched_unstored : list event :=
  [Accept req_unstored; Handler 0; Handler 0].
Definition st_unstored : server :=
  Eval vm_compute in default init (run V2 sched_unstored init).
Definition job_unstored : job :=
  Eval vm_compute in default (Job req_unstored AtSupersede fresh) (jobs st_unstored !! 0).

(** An oversize job and a second job of the same address supersede one after
    the other and then register in the same order: the second registration
    overwrites the first.  A third job of that address arrives later. *)
Definition sched_large_overwritten : list event :=
  [Accept req_large; Accept req_next; Handler 0; Handler 1; Handler 0; Handler 1].
Definition st_large_overwritten : server :=
  Eval vm_compute in default init (run V2 sched_large_overwritten init).
Definition sched_large_later : list event :=
  [Handler 0; Accept req_first; Handler 2; Handler 2; Handler 0].
Definition st_large_later : server :=
  Eval vm_compute in default init (run V2 sched_large_later st_large_overwritten).

(** The events that run code of job [j]: the steps of its handler goroutine
    and of its row goroutines. *)
Definition event_of (j : nat) (ev : event) : bool :=
  match ev with
  | Accept _ => false
  | Handler j' => Nat.eqb j' j
  | Row j' _ => Nat.eqb j' j
  end.

(** While the first job waits at its final check, a second job of the same
    address arrives, supersedes it and starts computing. *)
Definition sched_others : list event :=
  [Accept req_next; Handler 1; Handler 1; Handler 1; Row 1 0; Row 1 0].
Definition st_others : server :=
  Eval vm_compute in default init (run V2 sched_others st_at_report).
Definition job_at_report : job :=
  Eval vm_compute in default (Job req_first AtSupersede fresh) (jobs st_at_report !! 0).

(** [ev] is the supersede step of a job of key [k]: the handler goroutine it
    runs is about to call [cancelPreviousRequest(k)]. *)
Definition supersedes (k : string) (ev : event) (st : server) : bool :=
  match ev with
  | Handler j =>
      match jobs st !! j with
      | Some jb =>
          match j_pc jb with
          | AtSupersede => bool_decide (key jb = k)
          | _ => false
          end
      | None => false
      end
  | _ => false
  end.

(** No job of key [k] takes its supersede step in the run of [sched] from
    [st]. *)
Fixpoint no_supersede (v : version) (k : string) (sched : list event)
    (st : server) : bool :=
  match sched with
  | [] => true
  | ev :: sched' =>
      negb (supersedes k ev st) &&
      match step v ev st with
      | Some st' => no_supersede v k sched' st'
      | None => true
      end
  end.

Definition is_accept (ev : event) : bool :=
  match ev with Accept _ => true | _ => false end.

(** A request arrives, then an oversize request of the same address; the
    oversize job supersedes, registers and parks before the handler of the
    earlier request takes its supersede step.  No request arrives after the
    oversize one. *)
Definition sched_earlier_rest : list event :=
  [Handler 1; Handler 1; Handler 1; Handler 0; Handler 1].
Definition sched_earlier_supersedes : list event :=
  Accept req_first :: Accept req_large :: sched_earlier_rest.

(** The first job has registered when the oversize request arrives. *)
Definition sched_large_arrives : list event :=
  [Accept req_first; Handler 0; Handler 0; Accept req_large].
Definition st_large_arrives : server :=
  Eval vm_compute in default init (run V2 sched_large_arrives init).

(** * Proofs *)

(** ** The models on concrete inputs *)

Example Atoi_examples :
  strconv.Atoi "123" = (123%Z, None) ∧
  strconv.Atoi "-5" = ((-5)%Z, None) ∧
  strconv.Atoi "+7" = (7%Z, None) ∧
  strconv.Atoi "abc" = (0%Z, Some strconv.ErrSyntax) ∧
  strconv.Atoi EmptyString = (0%Z, Some strconv.ErrSyntax) ∧
  strconv.Atoi "-" = (0%Z, Some strconv.ErrSyntax) ∧
  strconv.Atoi "12a" = (0%Z, Some strconv.ErrSyntax) ∧
  strconv.Atoi "9223372036854775807" = (goint.MaxInt, None) ∧
  strconv.Atoi "9223372036854775808" = (goint.MaxInt, Some strconv.ErrRange) ∧
  strconv.Atoi "-9223372036854775809" = (goint.MinInt, Some strconv.ErrRange) ∧
  strconv.Atoi "99999999999999999999x" = (goint.MaxInt, Some strconv.ErrRange) ∧
  strconv.Atoi "1234567890123456789x" = (0%Z, Some strconv.ErrSyntax).
Proof. repeat split; vm_compute; reflexivity. Qed.

Example SplitHostPort_examples :
  net.SplitHostPort "127.0.0.1:8080" = Some ("127.0.0.1", "8080") ∧
  net.SplitHostPort "[::1]:8080" = Some ("::1", "8080") ∧
  net.SplitHostPort ":80" = Some (EmptyString, "80") ∧
  net.SplitHostPort "host:" = Some ("host", EmptyString) ∧
  net.SplitHostPort "::1" = None ∧
  net.SplitHostPort "[::1]" = None ∧
  net.SplitHostPort "[::1]x:80" = None ∧
  net.SplitHostPort "a[b:80" = None ∧
  net.SplitHostPort "10.0.0.7" = None ∧
  net.SplitHostPort EmptyString = None.
Proof. repeat split; vm_compute; reflexivity. Qed.

Example fmt_examples :
  fmt.d 0 = "0" ∧ fmt.d 2001 = "2001" ∧ fmt.d (-17) = "-17" ∧
  fmt.v [19; 22]%Z = "[19 22]" ∧ fmt.v [] = "[]".
Proof. repeat split; vm_compute; reflexivity. Qed.

Example multiply_2x2 :
  multiplyMatricesParallel
    [Run 0; Run 1; Run 0; Run 0; Run 1; Run 0; Run 0; Run 0; Run 0; Run 0; Run 0;
     Run 1; Run 1; Run 1; Run 1; Run 1; Run 1; Run 1]
    [[1; 2]; [3; 4]]%Z [[5; 6]; [7; 8]]%Z 2
  = Result [[19; 22]; [43; 50]]%Z.
Proof. reflexivity. Qed.


Section multiplier.
Context (a b : matrix) (size : nat).
Hypothesis (Ha : square size a) (Hb : square size b).

Lemma square_lookup (m : matrix) (i j : nat) :
  square size m → i < size → j < size →
  ∃ r, m !! i = Some r ∧ r !! j = Some (cell m i j).
Proof.
  intros [Hlen Hrows] Hi Hj.
  destruct (lookup_lt_is_Some_2 m i) as [r Hr]; [lia|].
  assert (length r = size) as Hlr.
  { rewrite Forall_lookup in Hrows. by apply (Hrows i). }
  destruct (lookup_lt_is_Some_2 r j) as [x Hx]; [lia|].
  exists r. split; [done|].
  unfold cell. rewrite (list_lookup_total_correct _ _ _ Hr).
  by rewrite (list_lookup_total_correct _ _ _ Hx).
Qed.

Lemma length_done_cols (i c : nat) : length (done_cols a b size i c) = c.
Proof. unfold done_cols. by rewrite length_fmap, length_seq. Qed.

Lemma done_cols_S (i c : nat) :
  done_cols a b size i (S c) = done_cols a b size i c ++ [dot_upto a b i c size].
Proof. unfold done_cols. by rewrite seq_S, fmap_app. Qed.

Lemma multiplyRow_step_spec (done : bool) (i : nat) (result : matrix) (p : pc)
    (row : list Z) :
  i < size → result !! i = Some row → row_at done a b size i p row →
  ∃ row' p',
    multiplyRow_step done a b i size result p = Some (<[i := row']> result, p') ∧
    row_at done a b size i p' row' ∧
    steps_left size p' ≤ steps_left size p - 1.
Proof.
  intros Hi Hrow Hat. destruct p as [j|j k|]; simpl in *.
  - destruct Hat as [Hj Heq]. case_decide as Hlt.
    + destruct done.
      * exists row, Returned. rewrite list_insert_id by done.
        split; [done|]. split; [|simpl; nia].
        exists j. split; [lia|]. by split.
      * exists row, (InLoop j 0). rewrite list_insert_id by done.
        split; [done|]. split; [|simpl; nia].
        split; [done|]. split; [lia|]. simpl. rewrite Heq.
        by replace (size - j) with (S (size - S j)) by lia.
    + exists row, Returned. rewrite list_insert_id by done.
      split; [done|]. split; [|simpl; nia].
      exists j. split; [lia|]. split; [lia|done].
  - destruct Hat as (Hj & Hk & Heq). case_decide as Hlt.
    + destruct (square_lookup a i k Ha Hi Hlt) as (ra & -> & Hx).
      destruct (square_lookup b k j Hb Hlt Hj) as (rb & Hrb & Hy).
      simpl. rewrite Hx. simpl. rewrite Hrb. simpl. rewrite Hy. simpl.
      rewrite Hrow. simpl. subst row.
      rewrite lookup_app_r by (rewrite length_done_cols; lia).
      rewrite length_done_cols, Nat.sub_diag. simpl.
      eexists _, (InLoop j (S k)). split; [done|].
      split; [|simpl; nia].
      split; [done|]. split; [lia|].
      rewrite insert_app_r_alt by (rewrite length_done_cols; lia).
      by rewrite length_done_cols, Nat.sub_diag.
    + exists row, (AtSelect (S j)). rewrite list_insert_id by done.
      split; [done|]. split; [|simpl; nia].
      split; [lia|]. assert (k = size) as -> by lia.
      by rewrite Heq, done_cols_S, <- app_assoc.
  - exists row, Returned. rewrite list_insert_id by done. by auto with lia.
Qed.

Lemma minv_spawn : minv false a b size (spawn size).
Proof.
  split_and!; simpl.
  - by rewrite length_replicate.
  - unfold make_matrix. by rewrite length_replicate.
  - intros i p [-> Hi]%lookup_replicate. exists (replicate size 0%Z).
    split; [by apply lookup_replicate|].
    split; [lia|]. by rewrite Nat.sub_0_r.
Qed.

Lemma minv_cancel (done : bool) (m : mstate) :
  minv done a b size m → minv true a b size m.
Proof.
  intros (Ht & Hr & Hrows). split_and!; [done..|].
  intros i p Hp. destruct (Hrows i p Hp) as (row & Hrow & Hat).
  exists row. split; [done|]. destruct p; [done..|].
  destruct Hat as (c & ? & ? & ?). exists c. by split_and!.
Qed.

Lemma run_task_spec (done : bool) (i : nat) (m : mstate) :
  minv done a b size m →
  ∃ m', run_task done a b size i m = Some m' ∧ minv done a b size m' ∧
        (∀ i', i' ≠ i → m_tasks m' !! i' = m_tasks m !! i') ∧
        (∀ p, m_tasks m !! i = Some p →
              ∃ p', m_tasks m' !! i = Some p' ∧
                    steps_left size p' ≤ steps_left size p - 1).
Proof.
  intros (Ht & Hr & Hrows). unfold run_task.
  destruct (m_tasks m !! i) as [p|] eqn:Hp; [|by exists m].
  assert (i < size) as Hi by (rewrite <- Ht; by eapply lookup_lt_Some).
  destruct (Hrows i p Hp) as (row & Hrow & Hat).
  destruct (multiplyRow_step_spec done i _ p row Hi Hrow Hat)
    as (row' & p' & -> & Hat' & Hless).
  simpl. eexists. split; [done|]. simpl. split_and!.
  - split_and!; simpl; [by rewrite length_insert..|].
    intros i' q Hq. destruct (decide (i' = i)) as [->|Hne].
    + rewrite list_lookup_insert_eq in Hq by lia. simplify_eq.
      exists row'. split; [|done]. apply list_lookup_insert_eq. lia.
    + rewrite list_lookup_insert_ne in Hq by done.
      rewrite list_lookup_insert_ne by done. by apply Hrows.
  - intros i' Hne. by apply list_lookup_insert_ne.
  - intros q ?. simplify_eq. exists p'. split; [|done].
    apply list_lookup_insert_eq. lia.
Qed.

Lemma mrun_spec (sched : list mevent) (s : msys) :
  minv (ctx_done s) a b size (work s) →
  ∃ s', mrun a b size sched s = Some s' ∧
        minv (ctx_done s') a b size (work s') ∧
        (Cancel ∉ sched → ctx_done s' = ctx_done s) ∧
        (∀ i p, m_tasks (work s) !! i = Some p →
                ∃ p', m_tasks (work s') !! i = Some p' ∧
                      steps_left size p' ≤
                        steps_left size p - turns i sched).
Proof.
  revert s. induction sched as [|ev sched IH]; intros s Hinv.
  { exists s. split_and!; [done..|]. intros i p Hp. exists p.
    split; [done|]. simpl. lia. }
  destruct ev as [|row]; simpl.
  - destruct (IH (MSys true (work s))) as (s' & Hrun & Hinv' & _ & Hleft).
    { simpl. by eapply minv_cancel. }
    exists s'. split_and!; [done..| |].
    + intros Hnot. exfalso. apply Hnot. by left.
    + intros i p Hp. destruct (Hleft i p Hp) as (p' & ? & ?).
      exists p'. by split.
  - destruct (run_task_spec (ctx_done s) row (work s) Hinv)
      as (m' & -> & Hinv' & Hframe & Hleft).
    simpl. destruct (IH (MSys (ctx_done s) m') Hinv')
      as (s' & Hrun & Hinv'' & Hdone & Hleft').
    exists s'. split_and!; [done..| |].
    + intros Hnot. apply Hdone. intros ?. apply Hnot. by right.
    + intros i p Hp. simpl in *. destruct (Nat.eqb_spec row i) as [->|Hne].
      * destruct (Hleft p Hp) as (q & Hq & ?).
        destruct (Hleft' i q Hq) as (p' & ? & ?). exists p'. split; [done|]. lia.
      * rewrite <- (Hframe i) in Hp by done.
        destruct (Hleft' i p Hp) as (p' & ? & ?). by exists p'.
Qed.

Lemma waited_returned (m : mstate) (i : nat) (p : pc) :
  waited m = true → m_tasks m !! i = Some p → p = Returned.
Proof.
  unfold waited. rewrite forallb_forall. intros Hall Hp.
  specialize (Hall p). destruct p; try done;
    by (discriminate Hall; apply list_elem_of_In; eapply list_elem_of_lookup_2).
Qed.

Lemma result_rows (s : msys) (i : nat) :
  minv (ctx_done s) a b size (work s) → waited (work s) = true → i < size →
  ∃ c, c ≤ size ∧ (c < size → ctx_done s = true) ∧
       m_result (work s) !! i =
         Some (done_cols a b size i c ++ replicate (size - c) 0%Z).
Proof.
  intros (Ht & Hr & Hrows) Hw Hi.
  destruct (lookup_lt_is_Some_2 (m_tasks (work s)) i) as [p Hp]; [lia|].
  assert (p = Returned) as -> by (by eapply waited_returned).
  destruct (Hrows i _ Hp) as (row & Hrow & c & ? & ? & ->). by exists c.
Qed.

Lemma result_reference (s : msys) :
  minv (ctx_done s) a b size (work s) → waited (work s) = true →
  ctx_done s = false → m_result (work s) = reference_product a b size.
Proof.
  intros Hinv Hw Hopen. apply list_eq. intros i.
  destruct (decide (i < size)) as [Hi|Hi].
  - destruct (result_rows s i Hinv Hw Hi) as (c & Hc & Hdone & ->).
    assert (c = size) as ->.
    { destruct (decide (c < size)) as [Hlt|]; [|lia].
      specialize (Hdone Hlt). congruence. }
    unfold reference_product. rewrite list_lookup_fmap, lookup_seq_lt by done.
    simpl. by rewrite Nat.sub_diag, app_nil_r.
  - destruct Hinv as (_ & Hr & _).
    rewrite lookup_ge_None_2 by lia. symmetry. apply lookup_ge_None_2.
    unfold reference_product. rewrite length_fmap, length_seq. lia.
Qed.

End multiplier.

Lemma wrap_congr (x y : Z) :
  (x mod 2 ^ goint.intSize = y mod 2 ^ goint.intSize)%Z → goint.wrap x = goint.wrap y.
Proof.
  intros Heq. unfold goint.wrap. f_equal.
  rewrite (Z.add_mod x), (Z.add_mod y), Heq by done. done.
Qed.

Lemma wrap_mod (z : Z) :
  (goint.wrap z mod 2 ^ goint.intSize = z mod 2 ^ goint.intSize)%Z.
Proof.
  unfold goint.wrap. rewrite Zminus_mod_idemp_l. f_equal. lia.
Qed.

Lemma dot_upto_exact (a b : matrix) (i j k : nat) :
  dot_upto a b i j k = goint.wrap (exact_dot a b i j k).
Proof.
  induction k as [|k IH]; [done|]. simpl. unfold goint.add, goint.mul.
  apply wrap_congr. rewrite IH.
  rewrite Z.add_mod, !wrap_mod, <- Z.add_mod by done. done.
Qed.

Lemma reference_product_cell (a b : matrix) (size i j : nat) :
  i < size → j < size →
  cell (reference_product a b size) i j = dot_upto a b i j size.
Proof.
  intros Hi Hj. unfold cell, reference_product.
  rewrite (list_lookup_total_correct _ i ((λ j, dot_upto a b i j size) <$> seq 0 size))
    by (by rewrite list_lookup_fmap, lookup_seq_lt).
  apply list_lookup_total_correct. by rewrite list_lookup_fmap, lookup_seq_lt.
Qed.

(** C1. For N×N matrices [a] and [b] and every schedule in which the context
    is never cancelled, [multiplyMatricesParallel] does not panic; whenever it
    returns, the matrix is the reference triple-loop product, cell (i,j) being
    the sum over k of a[i][k]·b[k][j] wrapped to the native width; and it does
    return under every schedule that gives each row goroutine
    size·(size+2)+1 turns. *)
Theorem multiplyMatricesParallel_product (a b : matrix) (size : nat)
    (sched : list mevent) :
  square size a → square size b → Cancel ∉ sched →
  multiplyMatricesParallel sched a b size ≠ Panicked ∧
  (∀ r, multiplyMatricesParallel sched a b size = Result r →
        r = reference_product a b size ∧
        ∀ i j, i < size → j < size →
               cell r i j = goint.wrap (exact_dot a b i j size)) ∧
  ((∀ i, i < size → size * (size + 2) + 1 ≤ turns i sched) →
   ∃ r, multiplyMatricesParallel sched a b size = Result r).
Proof.
  intros Ha Hb Hnc. unfold multiplyMatricesParallel.
  destruct (mrun_spec a b size Ha Hb sched (MSys false (spawn size)))
    as (s & -> & Hinv & Hopen & Hleft); [apply minv_spawn|].
  specialize (Hopen Hnc). simpl in Hopen. split_and!.
  - by destruct (waited (work s)).
  - intros r Hr. destruct (waited (work s)) eqn:Hw; [|done].
    injection Hr as <-.
    rewrite (result_reference a b size s Hinv Hw Hopen). split; [done|].
    intros i j Hi Hj. by rewrite reference_product_cell, dot_upto_exact.
  - intros Hfair. assert (waited (work s) = true) as ->; [|by eexists].
    unfold waited. apply forallb_forall. intros p [i Hp]%list_elem_of_In%list_elem_of_lookup.
    destruct Hinv as (Ht & _).
    assert (i < size) as Hi by (rewrite <- Ht; by eapply lookup_lt_Some).
    destruct (Hleft i (AtSelect 0)) as (p' & Hp' & Hle).
    { simpl. by apply lookup_replicate. }
    simplify_eq. specialize (Hfair i Hi). simpl in Hle.
    rewrite Nat.sub_0_r in Hle. destruct p; simpl in *; [nia..|done].
Qed.

Lemma multiplyMatricesParallel_product_witness :
  let a := [[1; 2]; [3; 4]]%Z in
  let b := [[5; 6]; [7; 8]]%Z in
  let sched := [Run 0; Run 1; Run 0; Run 0; Run 1; Run 0; Run 0; Run 0; Run 0;
                Run 0; Run 0; Run 1; Run 1; Run 1; Run 1; Run 1; Run 1; Run 1] in
  multiplyMatricesParallel sched a b 2 ≠ Panicked ∧
  (∀ r, multiplyMatricesParallel sched a b 2 = Result r →
        r = reference_product a b 2 ∧
        ∀ i j, i < 2 → j < 2 → cell r i j = goint.wrap (exact_dot a b i j 2)) ∧
  ((∀ i, i < 2 → 2 * (2 + 2) + 1 ≤ turns i sched) →
   ∃ r, multiplyMatricesParallel sched a b 2 = Result r).
Proof.
  apply (multiplyMatricesParallel_product [[1; 2]; [3; 4]]%Z [[5; 6]; [7; 8]]%Z 2).
  - split; [reflexivity|repeat constructor].
  - split; [reflexivity|repeat constructor].
  - intros Hin. repeat (apply elem_of_cons in Hin as [Hin|Hin]; [discriminate|]).
    by apply elem_of_nil in Hin.
Defined.




(** Row 0 is cancelled after its first column, row 1 after it has entered its
    first column: the entered column is finished, the rest stays zero. *)
Example cancelled_2x2 :
  mrun [[1; 2]; [3; 4]]%Z [[5; 6]; [7; 8]]%Z 2
    [Run 0; Run 0; Run 0; Run 0; Run 1; Cancel; Run 0; Run 1; Run 1; Run 1; Run 1]
    (MSys false (spawn 2))
  = Some (MSys true (MState [[19; 0]; [43; 0]]%Z [Returned; Returned])).
Proof. reflexivity. Qed.

(** ** The client key *)

Lemma str_app_cons (c : ascii) (s t : string) : String c s +:+ t = String c (s +:+ t).
Proof. reflexivity. Qed.

Lemma str_take_drop (n : nat) (s : string) : str_take n s +:+ str_drop n s = s.
Proof.
  revert s. induction n as [|n IH]; intros [|c s]; try done.
  simpl. by rewrite str_app_cons, IH.
Qed.

Lemma index_byte_drop (c : ascii) (s : string) (i : nat) :
  index_byte c s = Some i → str_drop i s = String c (str_drop (S i) s).
Proof.
  revert i. induction s as [|x s IH]; intros i; simpl; [done|].
  destruct (Ascii.eqb_spec x c) as [->|_].
  - intros [= <-]. done.
  - destruct (index_byte c s) as [i'|]; [|done].
    intros [= <-]. simpl. by apply IH.
Qed.

Lemma last_index_byte_drop (c : ascii) (s : string) (i : nat) :
  last_index_byte c s = Some i → str_drop i s = String c (str_drop (S i) s).
Proof.
  revert i. induction s as [|x s IH]; intros i; simpl; [done|].
  destruct (last_index_byte c s) as [i'|].
  - intros [= <-]. simpl. by apply IH.
  - destruct (Ascii.eqb_spec x c) as [->|_]; [|done]. by intros [= <-].
Qed.

Lemma SplitHostPort_shape (hostport host port : string) :
  net.SplitHostPort hostport = Some (host, port) →
  hostport = host +:+ ":" +:+ port ∨ hostport = "[" +:+ host +:+ "]:" +:+ port.
Proof.
  unfold net.SplitHostPort.
  destruct (last_index_byte ":" hostport) as [i|] eqn:Hi; [|done].
  apply last_index_byte_drop in Hi.
  destruct (net.first_byte_is "[" hostport) eqn:Hb.
  - destruct hostport as [|x tl]; [done|]. simpl in Hb.
    apply Ascii.eqb_eq in Hb as ->.
    destruct (index_byte "]" (String "[" tl)) as [e|] eqn:He; [|done].
    case_decide; [done|]. case_decide as Hei; [|done].
    cbn [mbind option_bind].
    destruct (index_byte "[" (str_drop _ _)); [done|].
    destruct (index_byte "]" (str_drop _ _)); [done|].
    intros [= <- <-]. right.
    apply index_byte_drop in He. destruct e as [|e]; [done|].
    replace (S e + 1) with (S (S e)) in * by lia. subst i. simpl in He, Hi.
    unfold slice. replace (S e - 1) with e by lia. simpl.
    rewrite <- (str_take_drop e tl) at 1. rewrite He, Hi.
    by replace (S (e + 1)) with (S (S e)) by lia.
  - destruct (index_byte ":" (slice 0 i hostport)); [done|].
    cbn [mbind option_bind].
    destruct (index_byte "[" (str_drop _ _)); [done|].
    destruct (index_byte "]" (str_drop _ _)); [done|].
    intros [= <- <-]. left. unfold slice. rewrite Nat.sub_0_r.
    change (str_drop 0 hostport) with hostport.
    rewrite <- (str_take_drop i hostport) at 1. rewrite Hi.
    by replace (i + 1) with (S i) by lia.
Qed.

(** C10. [extractIP] returns the host when [net.SplitHostPort] splits the
    address, the address then being host:port or [host]:port, and the whole
    address when the split fails; it is total, and its result is empty only
    for the empty address or an address whose host part is empty. *)
Theorem extractIP_strips_port (remoteAddr : string) :
  (∀ host port, net.SplitHostPort remoteAddr = Some (host, port) →
     extractIP remoteAddr = host ∧
     (remoteAddr = host +:+ ":" +:+ port ∨
      remoteAddr = "[" +:+ host +:+ "]:" +:+ port)) ∧
  (net.SplitHostPort remoteAddr = None → extractIP remoteAddr = remoteAddr) ∧
  (extractIP remoteAddr = EmptyString →
     remoteAddr = EmptyString ∨
     ∃ port, net.SplitHostPort remoteAddr = Some (EmptyString, port)).
Proof.
  unfold extractIP. split_and!.
  - intros host port Hsplit. rewrite Hsplit. split; [done|].
    by apply SplitHostPort_shape.
  - by intros ->.
  - destruct (net.SplitHostPort remoteAddr) as [[host port]|]; [|by left].
    intros ->. right. by exists port.
Qed.

Example extractIP_examples :
  extractIP "192.168.1.9:51234" = "192.168.1.9" ∧
  extractIP "[fe80::1]:443" = "fe80::1" ∧
  extractIP "192.168.1.9" = "192.168.1.9" ∧
  extractIP ":8080" = EmptyString.
Proof. repeat split; vm_compute; reflexivity. Qed.

(** ** Steps of the process *)

Lemma lookup_set_job (j j' : nat) (jb : job) (st : server) :
  j < length (jobs st) →
  jobs (set_job j jb st) !! j' = if decide (j = j') then Some jb else jobs st !! j'.
Proof.
  intros Hj. unfold set_job. simpl. case_decide as Heq.
  - subst. by apply list_lookup_insert_eq.
  - by apply list_lookup_insert_ne.
Qed.

Lemma handler_step_job (v : version) (j : nat) (jb : job) (st : server) :
  jobs st !! j = Some jb →
  ∃ jb', jobs (handler_step v j jb st) !! j = Some jb' ∧
         job_trans v (ctx_is_done j st) jb jb' ∧
         ∀ j', j' ≠ j → jobs (handler_step v j jb st) !! j' = jobs st !! j'.
Proof.
  intros Hj. assert (j < length (jobs st)) as Hlt by (by eapply lookup_lt_Some).
  assert (∀ jb' st0, jobs st0 = jobs st → job_trans v (ctx_is_done j st) jb jb' →
    ∃ jb'', jobs (set_job j jb' st0) !! j = Some jb'' ∧
            job_trans v (ctx_is_done j st) jb jb'' ∧
            ∀ j', j' ≠ j → jobs (set_job j jb' st0) !! j' = jobs st !! j') as Hset.
  { intros jb' st0 Heq Htr. exists jb'. split_and!; [|done|].
    - rewrite lookup_set_job by (by rewrite Heq). by rewrite decide_True.
    - intros j' Hne. rewrite lookup_set_job by (by rewrite Heq).
      rewrite decide_False by done. by rewrite Heq. }
  assert (∃ jb'', jobs st !! j = Some jb'' ∧ job_trans v (ctx_is_done j st) jb jb'' ∧
            ∀ j', j' ≠ j → jobs st !! j' = jobs st !! j') as Hstay.
  { exists jb. split_and!; [done|constructor|done]. }
  destruct jb as [r p w]. unfold handler_step. simpl.
  destruct p as [| | | |n a b m|n result|].
  - apply Hset; [|constructor]. unfold cancelPreviousRequest. by case_match.
  - apply Hset; [done|constructor].
  - destruct (sizing v (size_param r)) as [|n] eqn:Hs.
    + apply Hset; [done|by constructor].
    + destruct (persists v && store_fails r) eqn:Hp.
      * apply Hset; [done|by econstructor].
      * apply Hset; [done|by constructor].
  - destruct (ctx_is_done j st) eqn:Hd; [|done].
    apply Hset; [done|by constructor].
  - destruct (waited m) eqn:Hw; [|done]. apply Hset; [done|by constructor].
  - destruct (ctx_is_done j st) eqn:Hd; (apply Hset; [done|by constructor]).
  - done.
Qed.

Lemma step_job (v : version) (ev : event) (st st' : server) (j : nat) (jb : job) :
  step v ev st = Some st' → jobs st !! j = Some jb →
  ∃ jb', jobs st' !! j = Some jb' ∧ job_trans v (ctx_is_done j st) jb jb'.
Proof.
  intros Hstep Hj. destruct ev as [r|j0|j0 row]; simpl in Hstep.
  - injection Hstep as <-. simpl. exists jb. split; [|constructor].
    by apply lookup_app_l_Some.
  - destruct (jobs st !! j0) as [jb0|] eqn:Hj0; injection Hstep as <-;
      [|exists jb; split; [done|constructor]].
    destruct (handler_step_job v j0 jb0 st Hj0) as (jb' & Hjb' & Htr & Hframe).
    destruct (decide (j = j0)) as [->|Hne].
    + simplify_eq. by exists jb'.
    + exists jb. rewrite Hframe by done. split; [done|constructor].
  - destruct (jobs st !! j0) as [jb0|] eqn:Hj0;
      [|injection Hstep as <-; exists jb; split; [done|constructor]].
    unfold row_step in Hstep.
    destruct (j_pc jb0) as [| | | |n a b m|n result|] eqn:Hpc;
      try (injection Hstep as <-; exists jb; split; [done|constructor]).
    destruct (run_task _ _ _ _ _ _) as [m'|] eqn:Hrun; [|done].
    injection Hstep as <-.
    assert (j0 < length (jobs st)) as Hlt by (by eapply lookup_lt_Some).
    rewrite lookup_set_job by done. case_decide as Heq.
    + subst j0. rewrite Hj in Hj0. injection Hj0 as <-. eexists. split; [done|].
      destruct jb as [r p w]. simpl in *. subst p. by econstructor.
    + exists jb. split; [done|constructor].
Qed.

Lemma step_shared (v : version) (ev : event) (st st' : server) :
  step v ev st = Some st' → shared_trans st st' ev.
Proof.
  intros Hstep. destruct ev as [r|j|j row]; simpl in Hstep.
  - injection Hstep as <-. by constructor.
  - destruct (jobs st !! j) as [jb|] eqn:Hj; injection Hstep as <-;
      [|by constructor].
    assert (j < length (jobs st)) as Hlt by (by eapply lookup_lt_Some).
    destruct jb as [r p w]. unfold handler_step. simpl.
    destruct p as [| | | |n a b m|n result|].
    + eapply S_supersede; [done..| | |]; simpl.
      * apply list_lookup_insert_eq. unfold cancelPreviousRequest.
        by case_match.
      * done.
      * done.
    + eapply S_register; [done..| | |]; simpl; [|done..].
      by apply list_lookup_insert_eq.
    + repeat case_match; by constructor.
    + repeat case_match; by constructor.
    + repeat case_match; by constructor.
    + repeat case_match; by constructor.
    + by constructor.
  - destruct (jobs st !! j) as [jb|] eqn:Hj;
      [|injection Hstep as <-; by constructor].
    unfold row_step in Hstep.
    destruct (j_pc jb); try (injection Hstep as <-; by constructor).
    destruct (run_task _ _ _ _ _ _); [|done]. injection Hstep as <-.
    by constructor.
Qed.

Lemma cancelPreviousRequest_cancelled (ip : string) (st : server) :
  cancelled st ⊆ cancelled (cancelPreviousRequest ip st).
Proof. unfold cancelPreviousRequest. case_match; simpl; set_solver. Qed.

Lemma step_cancelled_mono (v : version) (ev : event) (st st' : server) :
  step v ev st = Some st' → cancelled st ⊆ cancelled st'.
Proof.
  intros Hstep.
  destruct (step_shared v ev st st' Hstep)
    as [_ ->|j jb _ _ _ _ _ ->|j jb _ _ _ _ _ ->]; [done| |done].
  apply cancelPreviousRequest_cancelled.
Qed.

Lemma step_new_job (v : version) (ev : event) (st st' : server) (j : nat) (jb : job) :
  step v ev st = Some st' → jobs st !! j = None → jobs st' !! j = Some jb →
  ev = Accept (j_req jb) ∧ j_pc jb = AtSupersede ∧ j_resp jb = fresh.
Proof.
  intros Hstep Hnone Hj. apply lookup_ge_None in Hnone.
  destruct ev as [r|j0|j0 row]; simpl in Hstep.
  - injection Hstep as <-. simpl in Hj.
    rewrite lookup_app_r in Hj by done.
    apply list_lookup_singleton_Some in Hj as [_ <-]. done.
  - destruct (jobs st !! j0) as [jb0|] eqn:Hj0; injection Hstep as <-.
    + destruct (handler_step_job v j0 jb0 st Hj0) as (jb' & Hjb' & _ & Hframe).
      apply lookup_lt_Some in Hj0 as ?.
      rewrite Hframe in Hj by lia. apply lookup_lt_Some in Hj. lia.
    + apply lookup_lt_Some in Hj. lia.
  - destruct (jobs st !! j0) as [jb0|] eqn:Hj0;
      [|injection Hstep as <-; apply lookup_lt_Some in Hj; lia].
    unfold row_step in Hstep.
    destruct (j_pc jb0);
      try (injection Hstep as <-; apply lookup_lt_Some in Hj; lia).
    destruct (run_task _ _ _ _ _ _); [|done]. injection Hstep as <-.
    apply lookup_lt_Some in Hj. unfold set_job in Hj. simpl in Hj.
    rewrite length_insert in Hj. lia.
Qed.

Lemma step_frame (v : version) (j j' : nat) (st st' : server) :
  step v (Handler j) st = Some st' → j' ≠ j → jobs st' !! j' = jobs st !! j'.
Proof.
  simpl. intros Hstep Hne.
  destruct (jobs st !! j) as [jb|] eqn:Hj; injection Hstep as <-; [|done].
  destruct (handler_step_job v j jb st Hj) as (_ & _ & _ & Hframe). by apply Hframe.
Qed.

Lemma job_trans_req (v : version) (done : bool) (jb jb' : job) :
  job_trans v done jb jb' →
  j_req jb' = j_req jb ∧
  (has_registered (j_pc jb) = true → has_registered (j_pc jb') = true).
Proof. by destruct 1. Qed.

Lemma generateMatrix_square (intn : nat → nat → Z) (size : nat) :
  square size (generateMatrix intn size).
Proof.
  unfold generateMatrix. split.
  - by rewrite length_fmap, length_seq.
  - apply Forall_fmap, Forall_forall. intros i _. simpl.
    by rewrite length_fmap, length_seq.
Qed.

Lemma minv_partial_rows (done : bool) (a b : matrix) (size : nat) (m : mstate) :
  minv done a b size m → waited m = true →
  partial_rows done a b size (m_result m).
Proof.
  intros (Ht & Hr & Hrows) Hw. split; [done|]. intros i Hi.
  destruct (lookup_lt_is_Some_2 (m_tasks m) i) as [p Hp]; [lia|].
  assert (p = Returned) as -> by (by eapply waited_returned).
  destruct (Hrows i _ Hp) as (row & Hrow & c & ? & ? & ->). by exists c.
Qed.

Lemma partial_rows_mono (done done' : bool) (a b : matrix) (size : nat) (r : matrix) :
  (done = true → done' = true) →
  partial_rows done a b size r → partial_rows done' a b size r.
Proof.
  intros Hd [Hlen Hrows]. split; [done|]. intros i Hi.
  destruct (Hrows i Hi) as (c & ? & ? & ?). exists c. split_and!; auto.
Qed.

Lemma partial_rows_open (a b : matrix) (size : nat) (r : matrix) :
  partial_rows false a b size r → r = reference_product a b size.
Proof.
  intros [Hlen Hrows]. apply list_eq. intros i.
  destruct (decide (i < size)) as [Hi|Hi].
  - destruct (Hrows i Hi) as (c & Hc & Hdone & ->).
    assert (c = size) as ->.
    { destruct (decide (c < size)) as [Hlt|]; [|lia]. by specialize (Hdone Hlt). }
    unfold reference_product. rewrite list_lookup_fmap, lookup_seq_lt by done.
    simpl. by rewrite Nat.sub_diag, app_nil_r.
  - rewrite lookup_ge_None_2 by lia. symmetry. apply lookup_ge_None_2.
    unfold reference_product. rewrite length_fmap, length_seq. lia.
Qed.

Lemma minv_mono (done done' : bool) (a b : matrix) (size : nat) (m : mstate) :
  (done = true → done' = true) → minv done a b size m → minv done' a b size m.
Proof.
  intros Hd Hinv. destruct done'; [by eapply minv_cancel|].
  destruct done; [by specialize (Hd eq_refl)|done].
Qed.

Lemma reported_mono (v : version) (done done' : bool) (jb : job) :
  (done = true → done' = true) → reported v done jb → reported v done' jb.
Proof.
  intros Hd [(? & ? & ?)|[(n & ? & ? & ?)|[(n & ? & ? & ?)|(n & ? & ?)]]].
  - left. auto.
  - right. left. eauto.
  - right. right. left. exists n. auto.
  - right. right. right. eauto.
Qed.

Lemma job_inv_mono (v : version) (done done' : bool) (jb : job) :
  (done = true → done' = true) → job_inv v done jb → job_inv v done' jb.
Proof.
  intros Hd. unfold job_inv. destruct (j_pc jb); try done.
  - intros (? & ? & ? & ? & ?). split_and!; try done. by eapply minv_mono.
  - intros (? & ? & ?). split_and!; try done. by eapply partial_rows_mono.
  - by apply reported_mono.
Qed.

Lemma job_trans_inv (v : version) (done done' : bool) (jb jb' : job) :
  (done = true → done' = true) →
  job_inv v done jb → job_trans v done jb jb' → job_inv v done' jb'.
Proof.
  intros Hd Hinv Htr. destruct Htr; unfold job_inv in *; simpl in *.
  - by eapply job_inv_mono.
  - done.
  - done.
  - done.
  - subst w. right. left. by exists n.
  - subst w. split_and!; try done.
    apply (minv_mono false); [done|apply minv_spawn].
  - destruct Hinv as [? ->]. left. split_and!; auto.
  - destruct Hinv as (? & -> & -> & Hm & ?). split_and!; try done.
    destruct (run_task_spec _ _ _ (generateMatrix_square _ _)
                (generateMatrix_square _ _) done row m Hm) as (m'' & Hrun & ? & _).
    rewrite Hrun in H. injection H as <-. by eapply minv_mono.
  - destruct Hinv as (? & -> & -> & Hm & ?). split_and!; try done.
    apply (partial_rows_mono done); [done|]. by apply minv_partial_rows.
  - destruct Hinv as (? & ? & ->). right. right. left. exists n. split_and!; auto.
  - destruct Hinv as (? & Hrows & ->). subst done. right. right. right.
    exists n. split; [done|]. simpl. by rewrite (partial_rows_open _ _ _ _ Hrows).
Qed.

Lemma sinv_init (v : version) : sinv v init.
Proof. split_and!; simpl; intros *; [by rewrite lookup_empty|set_solver|done]. Qed.

Lemma ctx_is_done_mono (v : version) (ev : event) (st st' : server) (j : nat) :
  step v ev st = Some st' → ctx_is_done j st = true → ctx_is_done j st' = true.
Proof.
  intros Hstep. unfold ctx_is_done. rewrite !bool_decide_eq_true.
  apply step_cancelled_mono in Hstep. set_solver.
Qed.

Lemma step_sinv (v : version) (ev : event) (st st' : server) :
  sinv v st → step v ev st = Some st' → sinv v st'.
Proof.
  intros (Hreg & Hcan & Hjobs) Hstep.
  assert (∀ c jb, jobs st !! c = Some jb → has_registered (j_pc jb) = true →
            ∃ jb', jobs st' !! c = Some jb' ∧ key jb' = key jb ∧
                   has_registered (j_pc jb') = true) as Hkeep.
  { intros c jb Hc Hr. destruct (step_job v ev st st' c jb Hstep Hc) as (jb' & ? & Htr).
    apply job_trans_req in Htr as [Hreq ?]. exists jb'.
    unfold key. rewrite Hreq. auto. }
  assert (∀ k c, activeRequests st !! k = Some c →
            ∃ jb, jobs st' !! c = Some jb ∧ key jb = k ∧
                  has_registered (j_pc jb) = true) as Hreg'.
  { intros k c Hk. destruct (Hreg k c Hk) as (jb & Hc & <- & Hr).
    by apply (Hkeep c jb). }
  assert (∀ c, c ∈ cancelled st →
            ∃ jb, jobs st' !! c = Some jb ∧ has_registered (j_pc jb) = true) as Hcan'.
  { intros c Hc. destruct (Hcan c Hc) as (jb & Hjb & Hr).
    destruct (Hkeep c jb Hjb Hr) as (jb' & ? & _ & ?). by exists jb'. }
  split_and!.
  - destruct (step_shared v ev st st' Hstep)
      as [-> _|j jb _ Hj Hpc Hj' -> _|j jb _ Hj Hpc Hj' -> _]; [done| |].
    + intros k c. unfold cancelPreviousRequest. case_match; simpl; [|by auto].
      intros [_ ?]%lookup_delete_Some. by auto.
    + intros k c [[<- <-]|[_ ?]]%lookup_insert_Some; [|by auto].
      eexists. by split.
  - destruct (step_shared v ev st st' Hstep)
      as [_ ->|j jb _ Hj Hpc Hj' _ ->|j jb _ Hj Hpc Hj' _ ->]; [done| |done].
    intros c. unfold cancelPreviousRequest.
    destruct (activeRequests st !! key jb) as [c0|] eqn:Hk; simpl; [|by auto].
    intros [->%elem_of_singleton|?]%elem_of_union; [|by auto].
    destruct (Hreg' _ _ Hk) as (jb0 & ? & _ & ?). by exists jb0.
  - intros j jb' Hj'. destruct (jobs st !! j) as [jb|] eqn:Hj.
    + destruct (step_job v ev st st' j jb Hstep Hj) as (jb'' & ? & Htr).
      simplify_eq. eapply job_trans_inv; [|by apply Hjobs|done].
      by eapply ctx_is_done_mono.
    + destruct (step_new_job v ev st st' j jb' Hstep Hj Hj') as (_ & Hpc & Hw).
      unfold job_inv. by rewrite Hpc.
Qed.

Lemma run_sinv (v : version) (sched : list event) (st st' : server) :
  sinv v st → run v sched st = Some st' → sinv v st'.
Proof.
  revert st. induction sched as [|ev sched IH]; intros st Hinv; simpl.
  - by intros [= <-].
  - destruct (step v ev st) as [st1|] eqn:Hstep; [|done]. simpl.
    apply IH. by eapply step_sinv.
Qed.

(** The process never panics: the matrices it multiplies are square. *)
Lemma step_total (v : version) (ev : event) (st : server) :
  sinv v st → is_Some (step v ev st).
Proof.
  intros (_ & _ & Hjobs). destruct ev as [r|j|j row]; simpl; [done| |].
  - by case_match.
  - destruct (jobs st !! j) as [jb|] eqn:Hj; [|done].
    unfold row_step. specialize (Hjobs j jb Hj). unfold job_inv in Hjobs.
    destruct (j_pc jb); try done.
    destruct Hjobs as (_ & -> & -> & Hm & _).
    destruct (run_task_spec _ _ _ (generateMatrix_square _ _)
                (generateMatrix_square _ _) (ctx_is_done j st) row m Hm)
      as (m' & -> & _). done.
Qed.

Lemma run_total (v : version) (sched : list event) (st : server) :
  sinv v st → is_Some (run v sched st).
Proof.
  revert st. induction sched as [|ev sched IH]; intros st Hinv; simpl; [done|].
  destruct (step_total v ev st Hinv) as [st1 Hstep]. rewrite Hstep. simpl.
  apply IH. by eapply step_sinv.
Qed.

(** A step cancels the context of a job only as the supersede step of a job
    of the same key. *)
Lemma step_cancel_origin (v : version) (ev : event) (st st' : server) (j : nat) (jb : job) :
  sinv v st → step v ev st = Some st' → jobs st !! j = Some jb →
  j ∉ cancelled st → j ∈ cancelled st' →
  ∃ j0 jb0, ev = Handler j0 ∧ jobs st !! j0 = Some jb0 ∧
            j_pc jb0 = AtSupersede ∧ key jb0 = key jb.
Proof.
  intros (Hreg & _ & _) Hstep Hj Hnot Hin.
  destruct (step_shared v ev st st' Hstep)
    as [_ Hc|j0 jb0 -> Hj0 Hpc _ _ Hc|j0 jb0 _ _ _ _ _ Hc];
    [by rewrite Hc in Hin| |by rewrite Hc in Hin].
  exists j0, jb0. split_and!; try done.
  rewrite Hc in Hin. unfold cancelPreviousRequest in Hin.
  destruct (activeRequests st !! key jb0) as [c|] eqn:Hk; [|done].
  simpl in Hin. apply elem_of_union in Hin as [->%elem_of_singleton|?]; [|done].
  destruct (Hreg _ _ Hk) as (jb1 & Hj1 & Hkey & _).
  rewrite Hj in Hj1. by injection Hj1 as <-.
Qed.

(** ** The registry *)

(** C6. [cancelPreviousRequest(ip)], one critical section of the registry
    lock, triggers the handle stored under [ip] and deletes that entry exactly
    when there is one, and otherwise changes nothing; the entries of all other
    keys stay as they are.  In every reachable state it leaves the contexts of
    the jobs of other keys untouched, and a step of the process cancels a
    job's context only if it is the supersede step of a job of the same key. *)
Theorem cancelPreviousRequest_frame (v : version) (sched : list event)
    (st : server) (ip : string) :
  run v sched init = Some st →
  (∀ c, activeRequests st !! ip = Some c →
        activeRequests (cancelPreviousRequest ip st) !! ip = None ∧
        cancelled (cancelPreviousRequest ip st) = {[c]} ∪ cancelled st) ∧
  (activeRequests st !! ip = None → cancelPreviousRequest ip st = st) ∧
  (∀ ip', ip' ≠ ip →
          activeRequests (cancelPreviousRequest ip st) !! ip' = activeRequests st !! ip') ∧
  jobs (cancelPreviousRequest ip st) = jobs st ∧
  (∀ j jb, jobs st !! j = Some jb → key jb ≠ ip →
           (j ∈ cancelled (cancelPreviousRequest ip st) ↔ j ∈ cancelled st)) ∧
  (∀ ev st' j jb,
     step v ev st = Some st' → jobs st !! j = Some jb →
     j ∉ cancelled st → j ∈ cancelled st' →
     ∃ j0 jb0, ev = Handler j0 ∧ jobs st !! j0 = Some jb0 ∧
               j_pc jb0 = AtSupersede ∧ key jb0 = key jb).
Proof.
  intros Hrun. pose proof (run_sinv v sched init st (sinv_init v) Hrun) as Hinv.
  pose proof Hinv as (Hreg & _ & _).
  unfold cancelPreviousRequest. split_and!.
  - intros c ->. simpl. split; [apply lookup_delete_eq|done].
  - by intros ->.
  - intros ip' Hne. case_match; [|done]. simpl. by apply lookup_delete_ne.
  - by case_match.
  - intros j jb Hj Hne. destruct (activeRequests st !! ip) as [c|] eqn:Hip; [|done].
    simpl. destruct (Hreg ip c Hip) as (jb0 & Hc & Hkey & _).
    assert (c ≠ j) by (intros ->; rewrite Hj in Hc; by injection Hc as <-).
    rewrite elem_of_union, elem_of_singleton.
    split; [intros [?|?]; [congruence|done]|by right].
  - intros ev st' j jb Hstep Hj Hnot Hin. by eapply step_cancel_origin.
Qed.

Lemma cancelPreviousRequest_frame_witness :
  activeRequests (cancelPreviousRequest "10.0.0.1" st_registered) !! "10.0.0.1" = None ∧
  cancelled (cancelPreviousRequest "10.0.0.1" st_registered) = {[0]} ∪ ∅.
Proof.
  refine (proj1 (cancelPreviousRequest_frame V2
                   [Accept req_first; Handler 0; Handler 0] st_registered
                   "10.0.0.1" _) 0 _); reflexivity.
Defined.

(** ** Responses *)

Lemma sizing_bounds (v : version) (param : string) (n : Z) :
  sizing v param = Sized n → (1 ≤ n ≤ 2000)%Z.
Proof.
  destruct v; unfold sizing, sizing_v1, sizing_v2;
    destruct (strconv.Atoi param) as [n0 err];
    repeat case_match; intros [= <-]; lia.
Qed.

Lemma run_app (v : version) (s1 s2 : list event) (st : server) :
  run v (s1 ++ s2) st = run v s1 st ≫= run v s2.
Proof.
  revert st. induction s1 as [|ev s1 IH]; intros st; simpl; [done|].
  destruct (step v ev st); simpl; [apply IH|done].
Qed.

Lemma cancelled_on_compute_path (v : version) (j : nat) (sched : list event) :
  ∀ st st' jb,
    sinv v st → jobs st !! j = Some jb → j ∈ cancelled st →
    (on_compute_path (j_pc jb) = true ∧ j_resp jb = fresh ∨
     j_pc jb = Finished ∧ j_resp jb = Response 200 msg_cancelled) →
    run v sched st = Some st' →
    ∃ jb', jobs st' !! j = Some jb' ∧ j_req jb' = j_req jb ∧
           (on_compute_path (j_pc jb') = true ∧ j_resp jb' = fresh ∨
            j_pc jb' = Finished ∧ j_resp jb' = Response 200 msg_cancelled).
Proof.
  induction sched as [|ev sched IH]; intros st st' jb Hinv Hj Hc Hq; simpl.
  { intros [= <-]. exists jb. by split_and!. }
  destruct (step v ev st) as [st1|] eqn:Hstep; [|done]. simpl. intros Hrun.
  destruct (step_job v ev st st1 j jb Hstep Hj) as (jb1 & Hj1 & Htr).
  assert (ctx_is_done j st = true) as Hd by (by apply bool_decide_eq_true).
  rewrite Hd in Htr.
  destruct (IH st1 st' jb1) as (jb' & ? & Hreq & ?); try done.
  - by eapply step_sinv.
  - apply (step_cancelled_mono v ev st st1 Hstep). done.
  - destruct Htr; simpl in *; destruct Hq as [[Hp Hw]|[Hp Hw]];
      try done; try subst w; try (by left); by right.
  - exists jb'. split_and!; [done| |done]. rewrite Hreq.
    by apply job_trans_req in Htr as [? _].
Qed.

(** C8. Once the context of a job that is computing (inside the multiplier or
    between its return and the final check) has been cancelled, the job can
    only finish with the body "Request was cancelled\n" and nothing else
    written, whatever rows the multiplier completed; at the final check that
    is what its step writes. *)
Theorem cancelled_compute_reports_only_cancellation (v : version)
    (sched sched' : list event) (st st' : server) (j : nat) (jb jb' : job) :
  run v sched init = Some st → jobs st !! j = Some jb →
  on_compute_path (j_pc jb) = true → j ∈ cancelled st →
  run v sched' st = Some st' → jobs st' !! j = Some jb' →
  (j_pc jb' = Finished → j_resp jb' = Response 200 msg_cancelled) ∧
  (j_pc jb' ≠ Finished → j_resp jb' = fresh) ∧
  (∀ n result, j_pc jb = AtReport n result →
     ∃ st1, step v (Handler j) st = Some st1 ∧
            jobs st1 !! j = Some (Job (j_req jb) Finished (Response 200 msg_cancelled))).
Proof.
  intros Hrun Hj Hpath Hc Hrun' Hj'.
  pose proof (run_sinv v sched init st (sinv_init v) Hrun) as Hinv.
  assert (j_resp jb = fresh) as Hw.
  { destruct Hinv as (_ & _ & Hjobs). specialize (Hjobs j jb Hj).
    unfold job_inv in Hjobs. destruct (j_pc jb); try done.
    - by destruct Hjobs as (_ & _ & _ & _ & ?).
    - by destruct Hjobs as (_ & _ & ?). }
  destruct (cancelled_on_compute_path v j sched' st st' jb Hinv Hj Hc)
    as (jb1 & Hj1 & _ & Hq); [by left|done|].
  rewrite Hj' in Hj1. injection Hj1 as <-. split_and!.
  - intros Hfin. destruct Hq as [[Hp _]|[_ ?]]; [|done]. by rewrite Hfin in Hp.
  - intros Hnot. by destruct Hq as [[_ ?]|[? _]].
  - intros n result Hpc. simpl. rewrite Hj. eexists. split; [done|].
    assert (j < length (jobs st)) by (by eapply lookup_lt_Some).
    unfold handler_step. rewrite Hpc.
    assert (ctx_is_done j st = true) as -> by (by apply bool_decide_eq_true).
    rewrite lookup_set_job, decide_True by done. by rewrite Hw.
Qed.

Lemma str_app_assoc (s t u : string) : (s +:+ t) +:+ u = s +:+ t +:+ u.
Proof. induction s as [|c s IH]; [done|]. by rewrite !str_app_cons, IH. Qed.

Lemma str_app_nil_r (s : string) : s +:+ EmptyString = s.
Proof. induction s as [|c s IH]; [done|]. by rewrite str_app_cons, IH. Qed.

Lemma write_rows (w : string) (result : matrix) :
  foldl (λ w row, w +:+ fmt.v row +:+ nl) w result =
  w +:+ str_concat (row_line <$> result).
Proof.
  revert w. induction result as [|row result IH]; intros w; simpl.
  - by rewrite str_app_nil_r.
  - rewrite IH. unfold row_line. by rewrite !str_app_assoc.
Qed.

Lemma write_success_closed (w : string) (n ms : Z) (result : matrix) :
  write_success w n ms result =
  w +:+ "Matrix multiplication (size: " +:+ fmt.d n +:+ ") completed in " +:+
  fmt.d ms +:+ " milliseconds" +:+ nl +:+
  "Resulting Matrix:" +:+ nl +:+ str_concat (row_line <$> result).
Proof. unfold write_success. rewrite write_rows. by rewrite !str_app_assoc. Qed.

Lemma count_byte_app (c : ascii) (s t : string) :
  count_byte c (s +:+ t) = count_byte c s + count_byte c t.
Proof.
  induction s as [|x s IH]; [done|]. rewrite str_app_cons. simpl. rewrite IH. lia.
Qed.

Lemma count_nl_uint (u : Decimal.uint) :
  count_byte "010" (NilEmpty.string_of_uint u) = 0.
Proof. induction u; simpl; done. Qed.

Lemma count_nl_d (z : Z) : count_byte "010" (fmt.d z) = 0.
Proof.
  unfold fmt.d, NilZero.string_of_int, NilZero.string_of_uint.
  destruct (Z.to_int z) as [u|u]; destruct u; simpl; try done;
    apply count_nl_uint.
Qed.

Lemma count_nl_join_strings (l : list string) :
  Forall (λ x, count_byte "010" x = 0) l → count_byte "010" (fmt.join " " l) = 0.
Proof.
  induction 1 as [|x l Hx Hl IH]; [done|].
  destruct l as [|y l]; [done|].
  change (fmt.join " " (x :: y :: l)) with (x +:+ " " +:+ fmt.join " " (y :: l)).
  rewrite !count_byte_app, Hx, IH. done.
Qed.

Lemma count_nl_join (l : list Z) :
  count_byte "010" (fmt.join " " (fmt.d <$> l)) = 0.
Proof.
  apply count_nl_join_strings, Forall_fmap, Forall_forall.
  intros z _. apply count_nl_d.
Qed.

Lemma count_nl_row_line (row : list Z) : count_byte "010" (row_line row) = 1.
Proof.
  unfold row_line, fmt.v. rewrite !count_byte_app, count_nl_join. done.
Qed.

Lemma count_nl_rows (result : matrix) :
  count_byte "010" (str_concat (row_line <$> result)) = length result.
Proof.
  induction result as [|row result IH]; [done|].
  change (str_concat (row_line <$> row :: result))
    with (row_line row +:+ str_concat (row_line <$> result)).
  by rewrite count_byte_app, count_nl_row_line, IH.
Qed.

Lemma reference_product_rows (a b : matrix) (size : nat) :
  square size (reference_product a b size).
Proof.
  unfold reference_product. split.
  - by rewrite length_fmap, length_seq.
  - apply Forall_fmap, Forall_forall. intros i _. simpl.
    by rewrite length_fmap, length_seq.
Qed.

(** C9. A job whose context is not cancelled at the final check finishes with
    status 200 and, as its whole body, the line "Matrix multiplication (size:
    N) completed in MS milliseconds", the line "Resulting Matrix:" and one
    line per row of the result, each the row's integers in brackets separated
    by spaces; the result is the N×N product of the generated matrices, so the
    body has exactly N + 2 line ends. *)
Theorem success_response_layout (v : version) (sched : list event) (st : server)
    (j : nat) (jb : job) (n : Z) (result : matrix) :
  run v sched init = Some st → jobs st !! j = Some jb →
  j_pc jb = AtReport n result → j ∉ cancelled st →
  ∃ st' w,
    step v (Handler j) st = Some st' ∧
    jobs st' !! j = Some (Job (j_req jb) Finished w) ∧
    status w = 200 ∧
    body w =
      "Matrix multiplication (size: " +:+ fmt.d n +:+ ") completed in " +:+
      fmt.d (elapsed_ms (j_req jb)) +:+ " milliseconds" +:+ nl +:+
      "Resulting Matrix:" +:+ nl +:+
      str_concat ((λ row, "[" +:+ fmt.join " " (fmt.d <$> row) +:+ "]" +:+ nl) <$> result) ∧
    sizing v (size_param (j_req jb)) = Sized n ∧ (1 ≤ n ≤ 2000)%Z ∧
    result = reference_product (generateMatrix (intn_a (j_req jb)) (Z.to_nat n))
                               (generateMatrix (intn_b (j_req jb)) (Z.to_nat n))
                               (Z.to_nat n) ∧
    square (Z.to_nat n) result ∧
    count_byte "010" (body w) = Z.to_nat n + 2.
Proof.
  intros Hrun Hj Hpc Hopen.
  pose proof (run_sinv v sched init st (sinv_init v) Hrun) as (_ & _ & Hjobs).
  specialize (Hjobs j jb Hj). unfold job_inv in Hjobs. rewrite Hpc in Hjobs.
  assert (ctx_is_done j st = false) as Hd by (by apply bool_decide_eq_false).
  rewrite Hd in Hjobs. destruct Hjobs as ([Hsz Hstore] & Hrows & Hw).
  apply partial_rows_open in Hrows.
  assert (j < length (jobs st)) by (by eapply lookup_lt_Some).
  eexists _, _. split_and!.
  - simpl. by rewrite Hj.
  - unfold handler_step. rewrite Hpc, Hd.
    by rewrite lookup_set_job, decide_True by done.
  - by rewrite Hw.
  - simpl. rewrite Hw, write_success_closed.
    assert (row_line <$> result =
            (λ row, "[" +:+ fmt.join " " (fmt.d <$> row) +:+ "]" +:+ nl) <$> result)
      as ->; [|done].
    apply list_fmap_ext. intros _ row _. unfold row_line, fmt.v.
    by rewrite !str_app_assoc.
  - exact Hsz.
  - by eapply sizing_bounds.
  - by eapply sizing_bounds.
  - exact Hrows.
  - rewrite Hrows. apply reference_product_rows.
  - simpl. rewrite Hw, write_success_closed. simpl.
    rewrite !count_byte_app, !count_nl_d, count_nl_rows. simpl.
    rewrite Hrows. unfold reference_product. rewrite length_fmap, length_seq. lia.
Qed.

Lemma cancelled_compute_reports_only_cancellation_witness :
  ∃ jb', jobs st_cancel_end !! 0 = Some jb' ∧ j_pc jb' = Finished ∧
         j_resp jb' = Response 200 msg_cancelled.
Proof.
  exists (Job req_second Finished (Response 200 msg_cancelled)).
  split; [reflexivity|]. split; [reflexivity|].
  refine (proj1 (cancelled_compute_reports_only_cancellation V2
                   sched_cancel_mid sched_cancel_rest st_cancel_mid st_cancel_end
                   0 _ (Job req_second Finished (Response 200 msg_cancelled))
                   _ _ _ _ _ _) eq_refl).
  - vm_compute. reflexivity.
  - reflexivity.
  - reflexivity.
  - vm_compute. reflexivity.
  - vm_compute. reflexivity.
  - reflexivity.
Defined.

Lemma success_response_layout_witness :
  ∃ st' w,
    step V2 (Handler 0) st_at_report = Some st' ∧
    jobs st' !! 0 = Some (Job req_first Finished w) ∧
    status w = 200 ∧ count_byte "010" (body w) = 3.
Proof.
  destruct (success_response_layout V2 sched_alone st_at_report 0
              (Job req_first (AtReport 1 [[6%Z]]) fresh) 1 [[6%Z]])
    as (st' & w & H1 & H2 & H3 & _ & _ & _ & _ & _ & H4).
  - vm_compute. reflexivity.
  - reflexivity.
  - reflexivity.
  - vm_compute. discriminate.
  - by exists st', w.
Defined.

Example success_body :
  (st ← step V2 (Handler 0) st_at_report; jb ← jobs st !! 0; Some (j_resp jb)) =
  Some (Response 200
          ("Matrix multiplication (size: 1) completed in 7 milliseconds" +:+ nl +:+
           "Resulting Matrix:" +:+ nl +:+ "[6]" +:+ nl)).
Proof. vm_compute. reflexivity. Qed.

(** ** The oversize gate *)

Lemma oversize_sizing (v : version) (param : string) (n : Z) :
  strconv.Atoi param = (n, None) → (2000 < n)%Z → sizing v param = Oversize.
Proof.
  intros Hparse Hn. destruct v; unfold sizing, sizing_v1, sizing_v2; rewrite Hparse.
  - by rewrite (proj2 (Z.ltb_lt _ _) Hn).
  - rewrite (bool_decide_eq_false_2 (None ≠ None)) by (by intros []).
    rewrite (proj2 (Z.leb_gt _ _)) by lia. simpl.
    by rewrite (proj2 (Z.ltb_lt _ _) Hn).
Qed.

Lemma job_trans_not_back (v : version) (done : bool) (jb jb' : job) :
  job_trans v done jb jb' → j_pc jb' = AtSupersede → j_pc jb = AtSupersede.
Proof. by destruct 1. Qed.

Lemma oversize_never_returns (v : version) (j : nat) (k : string) (sched : list event) :
  ∀ st st' jb,
    sinv v st → jobs st !! j = Some jb → key jb = k →
    sizing v (size_param (j_req jb)) = Oversize →
    j_pc jb = AtSizing ∨ j_pc jb = AwaitingCancel →
    j ∉ cancelled st →
    (∀ j' jb', jobs st !! j' = Some jb' → key jb' = k → j_pc jb' ≠ AtSupersede) →
    (∀ r, Accept r ∈ sched → extractIP (RemoteAddr r) ≠ k) →
    run v sched st = Some st' →
    ∃ jb', jobs st' !! j = Some jb' ∧
           (j_pc jb' = AtSizing ∨ j_pc jb' = AwaitingCancel) ∧ j ∉ cancelled st'.
Proof.
  induction sched as [|ev sched IH];
    intros st st' jb Hinv Hj Hkey Hsz Hpc Hopen Hnone Hacc; simpl.
  { intros [= <-]. by exists jb. }
  destruct (step v ev st) as [st1|] eqn:Hstep; [|done]. simpl. intros Hrun.
  destruct (step_job v ev st st1 j jb Hstep Hj) as (jb1 & Hj1 & Htr).
  assert (ctx_is_done j st = false) as Hd by (by apply bool_decide_eq_false).
  rewrite Hd in Htr. pose proof (job_trans_req _ _ _ _ Htr) as [Hreq _].
  apply (IH st1 st' jb1); try done.
  - by eapply step_sinv.
  - unfold key. by rewrite Hreq.
  - by rewrite Hreq.
  - destruct Htr; simpl in *; destruct Hpc; try done; try congruence; auto.
  - intros Hin.
    destruct (step_cancel_origin v ev st st1 j jb Hinv Hstep Hj Hopen Hin)
      as (j0 & jb0 & _ & Hj0 & Hpc0 & Hk0).
    apply (Hnone j0 jb0); congruence.
  - intros j' jb' Hj' Hk' Hpc'. destruct (jobs st !! j') as [jb0|] eqn:Hj0.
    + destruct (step_job v ev st st1 j' jb0 Hstep Hj0) as (jb0' & Hjb0' & Htr').
      rewrite Hj' in Hjb0'. injection Hjb0' as <-.
      apply (Hnone j' jb0 Hj0).
      * apply job_trans_req in Htr' as [Hreq' _]. unfold key in *. by rewrite <- Hreq'.
      * by eapply job_trans_not_back.
    + destruct (step_new_job v ev st st1 j' jb' Hstep Hj0 Hj') as (-> & _ & _).
      apply (Hacc (j_req jb')); [by left|done].
  - intros r Hr. apply Hacc. by right.
Qed.

Lemma oversize_waits_unsuperseded (v : version) (j : nat) (sched : list event) :
  ∀ st st' jb,
    sinv v st → jobs st !! j = Some jb →
    sizing v (size_param (j_req jb)) = Oversize →
    j_pc jb = AtSizing ∨ j_pc jb = AwaitingCancel →
    j ∉ cancelled st →
    no_supersede v (key jb) sched st = true →
    run v sched st = Some st' →
    ∃ jb', jobs st' !! j = Some jb' ∧
           (j_pc jb' = AtSizing ∨ j_pc jb' = AwaitingCancel) ∧
           j_resp jb' = j_resp jb ∧ j ∉ cancelled st'.
Proof.
  induction sched as [|ev sched IH];
    intros st st' jb Hinv Hj Hsz Hpc Hopen Hns Hrun; simpl in Hns, Hrun.
  { injection Hrun as <-. by exists jb. }
  destruct (step v ev st) as [st1|] eqn:Hstep; [|done]. simpl in Hrun.
  apply andb_prop in Hns as [Hev Hns].
  destruct (step_job v ev st st1 j jb Hstep Hj) as (jb1 & Hj1 & Htr).
  assert (ctx_is_done j st = false) as Hd by (by apply bool_decide_eq_false).
  rewrite Hd in Htr. pose proof (job_trans_req _ _ _ _ Htr) as [Hreq _].
  assert (key jb1 = key jb) as Hkey by (unfold key; by rewrite Hreq).
  assert ((j_pc jb1 = AtSizing ∨ j_pc jb1 = AwaitingCancel) ∧ j_resp jb1 = j_resp jb)
    as [Hpc1 Hresp1].
  { destruct Htr; simpl in *; destruct Hpc; try done; try congruence; auto. }
  destruct (IH st1 st' jb1) as (jb' & ? & ? & ? & ?); try done.
  - by eapply step_sinv.
  - by rewrite Hreq.
  - intros Hin.
    destruct (step_cancel_origin v ev st st1 j jb Hinv Hstep Hj Hopen Hin)
      as (j0 & jb0 & -> & Hj0 & Hpc0 & Hk0).
    simpl in Hev. rewrite Hj0, Hpc0 in Hev.
    by rewrite (bool_decide_eq_true_2 _ Hk0) in Hev.
  - by rewrite Hkey.
  - exists jb'. split_and!; [done|done|congruence|done].
Qed.

(** C4. A job whose size parameter parses to more than 2000 is never inside
    the multiplier nor past it.  Its supersede step deletes the entry of its
    key and triggers the handle stored there, which is the handle of a job of
    the same key, and triggers nothing when there is none.  Its sizing step
    parks it at the [select] on its own context, where a step leaves the state
    as it is as long as the context is open and writes exactly "Request was
    cancelled due to large number\n" once it is cancelled; a finished oversize
    job has that response and a cancelled context.  Its context is cancelled
    only by the supersede step of a job of its key taken while its own handle
    is the entry of the key.  As long as no job of its key takes its supersede
    step the registered job never finishes; that is so in particular when no
    job of its key is before its supersede step and none arrives. *)
Theorem oversize_waits_for_cancellation (v : version) (sched : list event)
    (st : server) (j : nat) (jb : job) (n : Z) :
  run v sched init = Some st → jobs st !! j = Some jb →
  strconv.Atoi (size_param (j_req jb)) = (n, None) → (2000 < n)%Z →
  on_compute_path (j_pc jb) = false ∧
  (j_pc jb = AtSupersede →
     ∃ st', step v (Handler j) st = Some st' ∧
            jobs st' !! j = Some (Job (j_req jb) AtRegister (j_resp jb)) ∧
            activeRequests st' = delete (key jb) (activeRequests st) ∧
            (∀ c, activeRequests st !! key jb = Some c →
                  cancelled st' = {[c]} ∪ cancelled st ∧
                  ∃ jbc, jobs st !! c = Some jbc ∧ key jbc = key jb) ∧
            (activeRequests st !! key jb = None → cancelled st' = cancelled st)) ∧
  (j_pc jb = AtSizing →
     ∃ st', step v (Handler j) st = Some st' ∧
            jobs st' !! j = Some (Job (j_req jb) AwaitingCancel fresh)) ∧
  (j_pc jb = AwaitingCancel → j ∉ cancelled st → step v (Handler j) st = Some st) ∧
  (j_pc jb = AwaitingCancel → j ∈ cancelled st →
     ∃ st', step v (Handler j) st = Some st' ∧
            jobs st' !! j = Some (Job (j_req jb) Finished (Response 200 msg_large))) ∧
  (j_pc jb = Finished → j_resp jb = Response 200 msg_large ∧ j ∈ cancelled st) ∧
  (∀ ev st',
     step v ev st = Some st' → j ∉ cancelled st → j ∈ cancelled st' →
     activeRequests st !! key jb = Some j ∧
     ∃ j0 jb0, ev = Handler j0 ∧ jobs st !! j0 = Some jb0 ∧
               j_pc jb0 = AtSupersede ∧ key jb0 = key jb) ∧
  (∀ sched' st',
     has_registered (j_pc jb) = true → j ∉ cancelled st →
     no_supersede v (key jb) sched' st = true →
     run v sched' st = Some st' →
     ∃ jb', jobs st' !! j = Some jb' ∧
            (j_pc jb' = AtSizing ∨ j_pc jb' = AwaitingCancel) ∧
            j_resp jb' = fresh ∧ j ∉ cancelled st') ∧
  (∀ sched' st',
     has_registered (j_pc jb) = true → j ∉ cancelled st →
     (∀ j' jb', jobs st !! j' = Some jb' → key jb' = key jb → j_pc jb' ≠ AtSupersede) →
     (∀ r, Accept r ∈ sched' → extractIP (RemoteAddr r) ≠ key jb) →
     run v sched' st = Some st' →
     ∃ jb', jobs st' !! j = Some jb' ∧ j_pc jb' ≠ Finished ∧ j ∉ cancelled st').
Proof.
  intros Hrun Hj Hparse Hn.
  pose proof (run_sinv v sched init st (sinv_init v) Hrun) as Hinv.
  pose proof Hinv as (Hreg & _ & Hjobs). specialize (Hjobs j jb Hj).
  pose proof (oversize_sizing v _ n Hparse Hn) as Hsz.
  assert (j < length (jobs st)) as Hlt by (by eapply lookup_lt_Some).
  assert (∀ n', ¬ computes v (j_req jb) n') as Hnc.
  { intros n' [Hs _]. congruence. }
  unfold job_inv in Hjobs.
  assert (has_registered (j_pc jb) = true → j ∉ cancelled st →
          (j_pc jb = AtSizing ∨ j_pc jb = AwaitingCancel) ∧ j_resp jb = fresh)
    as Hwaits.
  { intros Hr Hopen. destruct (j_pc jb) eqn:Hpc; try done.
    - split; [by left|done].
    - split; [by right|by destruct Hjobs].
    - destruct Hjobs as (? & _). by destruct (Hnc matrixSize).
    - destruct Hjobs as (? & _). by destruct (Hnc matrixSize).
    - destruct Hjobs as [(_ & Hd & _)|[(n' & ? & _)|[(n' & [? _] & _)|(n' & [? _] & _)]]];
        try congruence.
      by apply bool_decide_eq_true in Hd. }
  split_and!.
  - destruct (j_pc jb); try done.
    + destruct Hjobs as (? & _). by destruct (Hnc matrixSize).
    + destruct Hjobs as (? & _). by destruct (Hnc matrixSize).
  - intros Hpc. simpl. rewrite Hj. eexists. split; [done|].
    unfold handler_step. rewrite Hpc. fold (key jb).
    assert (j < length (jobs (cancelPreviousRequest (key jb) st))) as Hlt'.
    { unfold cancelPreviousRequest. by destruct (activeRequests st !! key jb). }
    split; [by rewrite lookup_set_job, decide_True|].
    unfold set_job, cancelPreviousRequest. simpl.
    destruct (activeRequests st !! key jb) as [c|] eqn:Hk; simpl.
    + split_and!; [done| |done]. intros c' [= <-]. split; [done|].
      destruct (Hreg _ _ Hk) as (jbc & ? & ? & _). by exists jbc.
    + split_and!; [by rewrite delete_id|done|done].
  - intros Hpc. simpl. rewrite Hj. eexists. split; [done|].
    unfold handler_step. rewrite Hpc, Hsz. rewrite Hpc in Hjobs.
    rewrite lookup_set_job, decide_True by done. by rewrite Hjobs.
  - intros Hpc Hopen. simpl. rewrite Hj. unfold handler_step. rewrite Hpc.
    unfold ctx_is_done. by rewrite (bool_decide_eq_false_2 _ Hopen).
  - intros Hpc Hdone. simpl. rewrite Hj. eexists. split; [done|].
    unfold handler_step. rewrite Hpc. unfold ctx_is_done.
    rewrite (bool_decide_eq_true_2 _ Hdone). rewrite Hpc in Hjobs.
    destruct Hjobs as [_ Hw]. rewrite lookup_set_job, decide_True by done.
    by rewrite Hw.
  - intros Hpc. rewrite Hpc in Hjobs.
    destruct Hjobs as [(_ & Hd & ?)|[(n' & ? & _)|[(n' & [? _] & _)|(n' & [? _] & _)]]];
      try congruence.
    split; [done|]. by apply bool_decide_eq_true in Hd.
  - intros ev st' Hstep Hopen Hin.
    destruct (step_cancel_origin v ev st st' j jb Hinv Hstep Hj Hopen Hin)
      as (j0 & jb0 & -> & Hj0 & Hpc0 & Hk0).
    split; [|by exists j0, jb0].
    simpl in Hstep. rewrite Hj0 in Hstep. injection Hstep as <-.
    unfold handler_step in Hin. rewrite Hpc0 in Hin. fold (key jb0) in Hin.
    rewrite Hk0 in Hin. unfold set_job, cancelPreviousRequest in Hin. simpl in Hin.
    destruct (activeRequests st !! key jb) as [c|]; simpl in Hin; [|done].
    apply elem_of_union in Hin as [->%elem_of_singleton|?]; done.
  - intros sched' st' Hr Hopen Hns Hrun'.
    destruct (Hwaits Hr Hopen) as [Hpc Hresp].
    destruct (oversize_waits_unsuperseded v j sched' st st' jb)
      as (jb' & ? & ? & ? & ?); try done.
    exists jb'. split_and!; [done|done|congruence|done].
  - intros sched' st' Hr Hopen Hnone Hacc Hrun'.
    destruct (Hwaits Hr Hopen) as [Hpc _].
    destruct (oversize_never_returns v j (key jb) sched' st st' jb)
      as (jb' & ? & Hpc' & ?); try done.
    exists jb'. split_and!; [done| |done]. by destruct Hpc' as [-> | ->].
Qed.

Lemma oversize_waits_for_cancellation_witness :
  ∃ st', step V2 (Handler 1) st_large_arrives = Some st' ∧
         jobs st' !! 1 = Some (Job req_large AtRegister fresh) ∧
         activeRequests st' = delete "10.0.0.1" (activeRequests st_large_arrives) ∧
         cancelled st' = {[0]} ∪ cancelled st_large_arrives.
Proof.
  destruct (proj1 (proj2
    (oversize_waits_for_cancellation V2 sched_large_arrives st_large_arrives 1
       (Job req_large AtSupersede fresh) 2001
       ltac:(vm_compute; reflexivity) ltac:(reflexivity)
       ltac:(vm_compute; reflexivity) ltac:(reflexivity))) eq_refl)
    as (st' & Hstep & Hjob & Hreg & Hcancel & _).
  exists st'. split_and!; [done..|]. by apply (Hcancel 0).
Defined.

(** An oversize job answers although no request arrives after it: a request
    of the same address that arrived before it takes its supersede step only
    after the oversize job has registered, in either handler. *)
Lemma oversize_job_answers_to_an_earlier_request :
  (∃ st, run V1 sched_earlier_supersedes init = Some st ∧
         jobs st !! 1 = Some (Job req_large Finished (Response 200 msg_large))) ∧
  (∃ st, run V2 sched_earlier_supersedes init = Some st ∧
         jobs st !! 1 = Some (Job req_large Finished (Response 200 msg_large))) ∧
  sched_earlier_supersedes = Accept req_first :: Accept req_large :: sched_earlier_rest ∧
  forallb (λ ev, negb (is_accept ev)) sched_earlier_rest = true ∧
  extractIP (RemoteAddr req_first) = extractIP (RemoteAddr req_large) ∧
  strconv.Atoi (size_param req_large) = (2001%Z, None).
Proof.
  split_and!; [eexists; split; vm_compute; reflexivity..|reflexivity|reflexivity| |];
    vm_compute; reflexivity.
Qed.

(** The parked job waits through the requests of another address, none of
    which is a supersede step of its key; in the run above the supersede step
    of the earlier request is one. *)
Example parked_job_waits_through_other_keys :
  no_supersede V2 "10.0.0.1"
    [Accept (Request "10.0.0.2:6000" "1" (λ _ _, 1%Z) (λ _ _, 1%Z) false 0%Z);
     Handler 1; Handler 1; Handler 0; Handler 1] st_parked = true ∧
  step V2 (Handler 0) st_parked = Some st_parked ∧
  no_supersede V2 "10.0.0.1" sched_earlier_supersedes init = false.
Proof. split_and!; vm_compute; reflexivity. Qed.

(** ** Sizing *)

Lemma sizing_default (v : version) (param : string) (n : Z) (err : option strconv.NumError) :
  strconv.Atoi param = (n, err) → err ≠ None ∨ (n ≤ 0)%Z →
  v = V2 ∨ (n ≤ 2000)%Z → sizing v param = Sized 100.
Proof.
  intros Hparse Hbad Hv.
  assert (bool_decide (err ≠ None) || (n <=? 0)%Z = true) as Hdef.
  { destruct Hbad as [?|?].
    - by rewrite bool_decide_eq_true_2.
    - rewrite (proj2 (Z.leb_le _ _)) by done. by rewrite orb_true_r. }
  destruct v; unfold sizing, sizing_v1, sizing_v2; rewrite Hparse, Hdef.
  - destruct Hv as [?|Hn]; [done|]. by rewrite (proj2 (Z.ltb_ge _ _) Hn).
  - done.
Qed.

(** In [V2] an invalid or non-positive size never meets the gate: the job
    computes with size 100 and its result has 100 rows of 100 entries. *)
Lemma invalid_size_computes_100 (sched : list event) (st : server) (j : nat)
    (jb : job) (n0 : Z) (err : option strconv.NumError) :
  run V2 sched init = Some st → jobs st !! j = Some jb →
  strconv.Atoi (size_param (j_req jb)) = (n0, err) → err ≠ None ∨ (n0 ≤ 0)%Z →
  j_pc jb ≠ AwaitingCancel ∧
  (∀ n result, j_pc jb = AtReport n result → j ∉ cancelled st →
               n = 100%Z ∧ square 100 result).
Proof.
  intros Hrun Hj Hparse Hbad.
  pose proof (run_sinv V2 sched init st (sinv_init V2) Hrun) as (_ & _ & Hjobs).
  specialize (Hjobs j jb Hj). unfold job_inv in Hjobs.
  pose proof (sizing_default V2 _ n0 err Hparse Hbad (or_introl eq_refl)) as Hsz.
  split.
  - intros Hpc. rewrite Hpc in Hjobs. destruct Hjobs as [? _]. congruence.
  - intros n result Hpc Hopen. rewrite Hpc in Hjobs.
    destruct Hjobs as ([Hs _] & Hrows & _).
    assert (n = 100%Z) as -> by congruence. split; [done|].
    unfold ctx_is_done in Hrows. rewrite (bool_decide_eq_false_2 _ Hopen) in Hrows.
    rewrite (partial_rows_open _ _ _ _ Hrows). apply reference_product_rows.
Qed.

(** C5. The handler without persistence tests the gate on what [Atoi]
    returned, before the default: a decimal numeral too large for an [int]
    fails to parse with the largest [int] as value, so the job takes the
    oversize path and parks at its [select], where the other handler
    defaults the size to 100. *)
Theorem overflowing_size_takes_the_gate :
  strconv.Atoi "99999999999999999999" = (goint.MaxInt, Some strconv.ErrRange) ∧
  sizing V1 (size_param req_overflow) = Oversize ∧
  sizing V2 (size_param req_overflow) = Sized 100 ∧
  run V1 [Accept req_overflow; Handler 0; Handler 0; Handler 0] init =
    Some (Server {[ "10.0.0.1" := 0 ]} ∅ [Job req_overflow AwaitingCancel fresh]) ∧
  (∀ v, sizing v "0" = Sized 100 ∧ sizing v "-5" = Sized 100 ∧
        sizing v "abc" = Sized 100 ∧ sizing v EmptyString = Sized 100).
Proof.
  split_and!; try (vm_compute; reflexivity).
  intros []; split_and!; vm_compute; reflexivity.
Qed.

(** ** Completion and the registry *)

(** One job, alone on its key, runs to its success response: afterwards its
    entry is still in [activeRequests] and its context is not cancelled. *)
Lemma finished_job_keeps_its_entry :
  run V2 (sched_alone ++ [Handler 0]) init = Some st_reported ∧
  jobs st_reported = [Job req_first Finished success_first] ∧
  activeRequests st_reported !! "10.0.0.1" = Some 0 ∧
  0 ∉ cancelled st_reported.
Proof. split_and!; try (vm_compute; reflexivity). vm_compute. discriminate. Qed.

(** C3, as the code has it.  The step that takes a job to a terminal state
    changes neither [activeRequests] nor any context.  An entry of
    [activeRequests] and its handle are left as they are by every step except
    the supersede step of a job of the same key, which triggers the handle and
    deletes the entry, and the register step of a job of the same key, which
    overwrites the entry: a finished job's entry stays until then. *)
Theorem entry_outlives_its_job (v : version) (sched : list event)
    (st : server) (ev : event) (st' : server) :
  run v sched init = Some st → step v ev st = Some st' →
  (∀ j jb jb', jobs st !! j = Some jb → jobs st' !! j = Some jb' →
     j_pc jb ≠ Finished → j_pc jb' = Finished →
     activeRequests st' = activeRequests st ∧ cancelled st' = cancelled st) ∧
  (∀ k c, activeRequests st !! k = Some c →
     (activeRequests st' !! k = Some c ∧ (c ∈ cancelled st' ↔ c ∈ cancelled st)) ∨
     (∃ j jb, ev = Handler j ∧ jobs st !! j = Some jb ∧ key jb = k ∧
              (j_pc jb = AtSupersede ∧
               activeRequests st' !! k = None ∧ c ∈ cancelled st' ∨
               j_pc jb = AtRegister ∧ activeRequests st' !! k = Some j))).
Proof.
  intros Hrun Hstep.
  pose proof (run_sinv v sched init st (sinv_init v) Hrun) as (Hreg & _ & _).
  assert (∀ j0 jb0 p, ev = Handler j0 → jobs st !! j0 = Some jb0 →
            jobs st' !! j0 = Some (Job (j_req jb0) p (j_resp jb0)) → p ≠ Finished →
            ∀ j jb jb', jobs st !! j = Some jb → jobs st' !! j = Some jb' →
                        j_pc jb ≠ Finished → j_pc jb' = Finished → False) as Hmove.
  { intros j0 jb0 p -> Hj0 Hj0' Hp j jb jb' Hj Hj' Hpc Hpc'.
    destruct (decide (j = j0)) as [->|Hne].
    - rewrite Hj0' in Hj'. injection Hj' as <-. done.
    - rewrite (step_frame v j0 j st st' Hstep Hne), Hj in Hj'.
      injection Hj' as <-. done. }
  split.
  - intros j jb jb' Hj Hj' Hpc Hpc'.
    destruct (step_shared v ev st st' Hstep)
      as [? ?|j0 jb0 Hev Hj0 Hpc0 Hj0' _ _|j0 jb0 Hev Hj0 Hpc0 Hj0' _ _]; [done| |];
      by destruct (Hmove j0 jb0 _ Hev Hj0 Hj0' ltac:(done) j jb jb').
  - intros k c Hk.
    destruct (step_shared v ev st st' Hstep)
      as [Hr Hc|j0 jb0 Hev Hj0 Hpc0 _ Hr Hc|j0 jb0 Hev Hj0 Hpc0 _ Hr Hc].
    + left. by rewrite Hr, Hc.
    + rewrite Hr, Hc. unfold cancelPreviousRequest.
      destruct (decide (k = key jb0)) as [->|Hne].
      * right. exists j0, jb0. split_and!; [done..|]. left. rewrite Hk. simpl.
        split_and!; [done|apply lookup_delete_eq|]. apply elem_of_union_l.
        by apply elem_of_singleton.
      * left. destruct (activeRequests st !! key jb0) as [c0|] eqn:Hk0; [|done].
        simpl. rewrite lookup_delete_ne by done. split; [done|].
        destruct (Hreg _ _ Hk) as (jb1 & Hj1 & Hkey1 & _).
        destruct (Hreg _ _ Hk0) as (jb2 & Hj2 & Hkey2 & _).
        assert (c ≠ c0) by (intros ->; congruence).
        rewrite elem_of_union, elem_of_singleton.
        split; [intros [?|?]; [congruence|done]|by right].
    + rewrite Hr, Hc. destruct (decide (k = key jb0)) as [->|Hne].
      * right. exists j0, jb0. split_and!; [done..|]. right.
        split; [done|apply lookup_insert_eq].
      * left. by rewrite lookup_insert_ne.
Qed.

Lemma entry_outlives_its_job_witness :
  activeRequests st_reported = activeRequests st_at_report ∧
  cancelled st_reported = cancelled st_at_report.
Proof.
  refine (proj1 (entry_outlives_its_job V2 sched_alone st_at_report (Handler 0)
                   st_reported _ _)
            0 (Job req_first (AtReport 1 [[6%Z]]) fresh)
            (Job req_first Finished success_first) _ _ _ _).
  - vm_compute. reflexivity.
  - vm_compute. reflexivity.
  - reflexivity.
  - vm_compute. reflexivity.
  - discriminate.
  - reflexivity.
Defined.

(** ** Latest wins *)

(** Two jobs of one key, the second accepted before the first has finished,
    both report success: once when the second takes its supersede step after
    the first has passed its final check, once when both take their supersede
    step before either has registered. *)
Lemma both_jobs_report_success :
  (∃ st, run V2 sched_late_supersede init = Some st ∧
         jobs st = [Job req_first Finished success_first;
                    Job req_next Finished success_next]) ∧
  (∃ st, run V2 sched_race init = Some st ∧
         jobs st = [Job req_first Finished success_first;
                    Job req_next Finished success_next]) ∧
  key (Job req_first Finished success_first) = key (Job req_next Finished success_next).
Proof.
  split_and!; [eexists; split; vm_compute; reflexivity..|vm_compute; reflexivity].
Qed.

Lemma cancelled_never_succeeds (v : version) (j : nat) (sched : list event) :
  ∀ st st' jb,
    sinv v st → jobs st !! j = Some jb → j ∈ cancelled st →
    (j_pc jb = Finished → not_served v jb) →
    run v sched st = Some st' →
    ∃ jb', jobs st' !! j = Some jb' ∧ j_req jb' = j_req jb ∧
           (j_pc jb' = Finished → not_served v jb').
Proof.
  induction sched as [|ev sched IH]; intros st st' jb Hinv Hj Hc Hq; simpl.
  { intros [= <-]. by exists jb. }
  destruct (step v ev st) as [st1|] eqn:Hstep; [|done]. simpl. intros Hrun.
  destruct (step_job v ev st st1 j jb Hstep Hj) as (jb1 & Hj1 & Htr).
  assert (ctx_is_done j st = true) as Hd by (by apply bool_decide_eq_true).
  pose proof Hinv as (_ & _ & Hjobs). specialize (Hjobs j jb Hj).
  rewrite Hd in Htr, Hjobs.
  destruct (IH st1 st' jb1) as (jb' & ? & Hreq & ?); try done.
  - by eapply step_sinv.
  - apply (step_cancelled_mono v ev st st1 Hstep). done.
  - unfold job_inv, not_served in *.
    destruct Htr; simpl in *; try done; try subst w.
    + intros _. right. right. done.
    + intros _. destruct Hjobs as [_ ->]. right. by left.
    + intros _. destruct Hjobs as (_ & _ & ->). by left.
  - exists jb'. split_and!; [done| |done]. rewrite Hreq.
    by apply job_trans_req in Htr as [? _].
Qed.

Lemma success_is_not_a_message (v : version) (jb : job) (n ms : Z) (r : matrix) :
  not_served v jb → j_resp jb ≠ Response 200 (write_success EmptyString n ms r).
Proof.
  rewrite write_success_closed.
  intros [->|[->|[_ ->]]]; intros [= Heq]; discriminate Heq.
Qed.

(** C2, as the code has it.  When job J2 takes its supersede step while the
    handle of J1 is the entry of their key and J1 has not finished, J1's
    context is cancelled by that step, and whenever J1 is finished afterwards
    its response is a cancellation message (or, where the handler persists
    requests, the storage failure) and never the success response; J2, once
    finished, has one of the four responses of a job, a cancellation only with
    its own context cancelled. *)
Theorem supersede_cancels_the_registered_job (v : version)
    (sched sched' : list event) (st st1 st' : server)
    (j1 j2 : nat) (jb1 jb2 jb1' : job) :
  run v sched init = Some st →
  jobs st !! j2 = Some jb2 → j_pc jb2 = AtSupersede →
  activeRequests st !! key jb2 = Some j1 →
  jobs st !! j1 = Some jb1 → j_pc jb1 ≠ Finished →
  step v (Handler j2) st = Some st1 → run v sched' st1 = Some st' →
  jobs st' !! j1 = Some jb1' →
  key jb1 = key jb2 ∧ j1 ∈ cancelled st1 ∧
  (j_pc jb1' = Finished →
     not_served v jb1' ∧
     ∀ n ms r, j_resp jb1' ≠ Response 200 (write_success EmptyString n ms r)) ∧
  (∀ jb2', jobs st' !! j2 = Some jb2' → j_pc jb2' = Finished →
           reported v (ctx_is_done j2 st') jb2').
Proof.
  intros Hrun Hj2 Hpc2 Hk Hj1 Hpc1 Hstep Hrun' Hj1'.
  pose proof (run_sinv v sched init st (sinv_init v) Hrun) as Hinv.
  pose proof (step_sinv v _ st st1 Hinv Hstep) as Hinv1.
  pose proof (run_sinv v sched' st1 st' Hinv1 Hrun') as Hinv'.
  pose proof Hinv as (Hreg & _ & _).
  destruct (Hreg _ _ Hk) as (jb & Hjb & Hkey & Hregd).
  rewrite Hj1 in Hjb. injection Hjb as <-.
  assert (j1 ≠ j2) as Hne.
  { intros ->. rewrite Hj2 in Hj1. injection Hj1 as <-. by rewrite Hpc2 in Hregd. }
  assert (j1 ∈ cancelled st1) as Hc.
  { destruct (step_shared v _ st st1 Hstep)
      as [Hr _|j0 jb0 [= <-] Hj0 _ _ _ ->|j0 jb0 [= <-] Hj0 Hpc0 _ _ _].
    - exfalso. simpl in Hstep. rewrite Hj2 in Hstep. injection Hstep as <-.
      unfold handler_step in Hr. rewrite Hpc2 in Hr. simpl in Hr.
      unfold cancelPreviousRequest, key in *. rewrite Hk in Hr. simpl in Hr.
      assert (delete (extractIP (RemoteAddr (j_req jb2))) (activeRequests st)
                !! extractIP (RemoteAddr (j_req jb2)) = Some j1) as Hbad
        by (by rewrite Hr).
      by rewrite lookup_delete_eq in Hbad.
    - rewrite Hj2 in Hj0. injection Hj0 as <-.
      unfold cancelPreviousRequest. rewrite Hk. simpl.
      apply elem_of_union_l. by apply elem_of_singleton.
    - rewrite Hj2 in Hj0. injection Hj0 as <-. congruence. }
  split_and!; [done..| |].
  - intros Hfin.
    destruct (cancelled_never_succeeds v j1 sched' st1 st' jb1 Hinv1)
      as (jb & Hjb & _ & Hq); try done.
    { by rewrite (step_frame v j2 j1 st st1 Hstep Hne). }
    rewrite Hj1' in Hjb. injection Hjb as <-.
    split; [by apply Hq|]. intros n ms r. by apply (success_is_not_a_message v), Hq.
  - intros jb2' Hj2' Hfin. destruct Hinv' as (_ & _ & Hjobs).
    specialize (Hjobs j2 jb2' Hj2'). unfold job_inv in Hjobs. by rewrite Hfin in Hjobs.
Qed.

Example job_cancel_before_computes :
  j_pc job_cancel_before =
  Computing 2 [[0; 1]; [1; 2]]%Z [[1; 1]; [1; 1]]%Z
    (MState [[1; 0]; [0; 0]]%Z [InLoop 0 2; AtSelect 0]).
Proof. reflexivity. Qed.

Lemma supersede_cancels_the_registered_job_witness :
  0 ∈ cancelled st_cancel_mid ∧
  not_served V2 (Job req_second Finished (Response 200 msg_cancelled)).
Proof.
  destruct (supersede_cancels_the_registered_job V2
              sched_cancel_before sched_cancel_rest
              st_cancel_before st_cancel_mid st_cancel_end 0 1
              job_cancel_before (Job req_first AtSupersede fresh)
              (Job req_second Finished (Response 200 msg_cancelled)))
    as (_ & Hc & Hq & _).
  - vm_compute. reflexivity.
  - reflexivity.
  - reflexivity.
  - vm_compute. reflexivity.
  - vm_compute. reflexivity.
  - discriminate.
  - vm_compute. reflexivity.
  - vm_compute. reflexivity.
  - reflexivity.
  - split; [exact Hc|]. exact (proj1 (Hq eq_refl)).
Defined.

(** * Further properties of the multiplier, the registry and the handlers *)

(** ** The multiplier under cancellation *)

Lemma minv_rows_square (done : bool) (a b : matrix) (size : nat) (m : mstate) :
  minv done a b size m → square size (m_result m).
Proof.
  intros (Ht & Hr & Hrows). split; [done|]. apply Forall_lookup. intros i row Hrow.
  assert (i < size) as Hi by (rewrite <- Hr; by eapply lookup_lt_Some).
  destruct (lookup_lt_is_Some_2 (m_tasks m) i) as [p Hp]; [lia|].
  destruct (Hrows i p Hp) as (row' & Hrow' & Hat).
  rewrite Hrow in Hrow'. injection Hrow' as <-.
  destruct p as [j|j k|]; simpl in Hat.
  - destruct Hat as [? ->]. rewrite length_app, length_done_cols, length_replicate. lia.
  - destruct Hat as (? & ? & ->).
    rewrite length_app, length_done_cols. simpl. rewrite length_replicate. lia.
  - destruct Hat as (c & ? & _ & ->).
    rewrite length_app, length_done_cols, length_replicate. lia.
Qed.

(** X1. The fan-in barrier is always released: on square inputs the call never
    panics, whenever and however often the context is cancelled, and it
    returns an N×N matrix under every schedule that gives each row goroutine
    size·(size+2)+1 turns. *)
Theorem multiplier_returns_despite_cancellation (a b : matrix) (size : nat)
    (sched : list mevent) :
  square size a → square size b →
  multiplyMatricesParallel sched a b size ≠ Panicked ∧
  (∀ r, multiplyMatricesParallel sched a b size = Result r → square size r) ∧
  ((∀ i, i < size → size * (size + 2) + 1 ≤ turns i sched) →
   ∃ r, multiplyMatricesParallel sched a b size = Result r).
Proof.
  intros Ha Hb. unfold multiplyMatricesParallel.
  destruct (mrun_spec a b size Ha Hb sched (MSys false (spawn size)))
    as (s & -> & Hinv & _ & Hleft); [apply minv_spawn|].
  split_and!.
  - by destruct (waited (work s)).
  - intros r Hr. destruct (waited (work s)); [|done]. injection Hr as <-.
    by eapply minv_rows_square.
  - intros Hfair. assert (waited (work s) = true) as ->; [|by eexists].
    unfold waited. apply forallb_forall.
    intros p [i Hp]%list_elem_of_In%list_elem_of_lookup.
    destruct Hinv as (Ht & _).
    assert (i < size) as Hi by (rewrite <- Ht; by eapply lookup_lt_Some).
    destruct (Hleft i (AtSelect 0)) as (p' & Hp' & Hle).
    { simpl. by apply lookup_replicate. }
    rewrite Hp in Hp'. injection Hp' as <-. specialize (Hfair i Hi). simpl in Hle.
    rewrite Nat.sub_0_r in Hle. destruct p; simpl in *; [nia..|done].
Qed.

Lemma multiplier_returns_despite_cancellation_witness :
  multiplyMatricesParallel
    [Run 0; Run 0; Run 0; Run 0; Run 1; Cancel; Run 0; Run 1; Run 1; Run 1; Run 1]
    [[1; 2]; [3; 4]]%Z [[5; 6]; [7; 8]]%Z 2 ≠ Panicked.
Proof.
  refine (proj1 (multiplier_returns_despite_cancellation
                   [[1; 2]; [3; 4]]%Z [[5; 6]; [7; 8]]%Z 2 _ _ _)).
  - split; [reflexivity|repeat constructor].
  - split; [reflexivity|repeat constructor].
Defined.

Lemma cancelled_at_entry_inv (a b : matrix) (size : nat) (sched : list mevent) :
  ∀ m, m_result m = make_matrix size →
       Forall (λ p, p = AtSelect 0 ∨ p = Returned) (m_tasks m) →
       ∃ m', mrun a b size sched (MSys true m) = Some (MSys true m') ∧
             m_result m' = make_matrix size ∧
             length (m_tasks m') = length (m_tasks m) ∧
             ∀ i, i < length (m_tasks m) →
                  0 < turns i sched ∨ m_tasks m !! i = Some Returned →
                  m_tasks m' !! i = Some Returned.
Proof.
  induction sched as [|ev sched IH]; intros m Hres Hall; simpl.
  { exists m. split_and!; [done..|]. intros i _ [?|?]; [lia|done]. }
  destruct ev as [|row]; simpl.
  { destruct (IH m Hres Hall) as (m' & ? & ? & ? & ?). by exists m'. }
  unfold run_task.
  destruct (m_tasks m !! row) as [p|] eqn:Hp; simpl.
  - assert (multiplyRow_step true a b row size (m_result m) p =
            Some (m_result m, Returned)) as ->.
    { rewrite Forall_lookup in Hall. destruct (Hall row p Hp) as [-> | ->]; simpl.
      - by case_decide.
      - done. }
    simpl.
    destruct (IH (MState (m_result m) (<[row := Returned]> (m_tasks m))))
      as (m' & Hrun & Hres' & Hlen & Hturn); simpl; [done| |].
    { apply Forall_insert; [done|by right]. }
    simpl in Hlen, Hturn. rewrite length_insert in Hlen, Hturn.
    exists m'. split_and!; [done..|].
    intros i Hlt Hi. apply Hturn; [done|].
    destruct (Nat.eqb_spec row i) as [->|Hne].
    + right. by apply list_lookup_insert_eq.
    + rewrite list_lookup_insert_ne by done. simpl in Hi. done.
  - destruct (IH m Hres Hall) as (m' & Hrun & ? & ? & Hturn).
    exists m'. split_and!; [done..|]. intros i Hlt Hi. apply Hturn; [done|].
    destruct (Nat.eqb_spec row i) as [->|Hne]; [|done].
    apply lookup_ge_None in Hp. lia.
Qed.

(** X2. A call entered with a context that is already cancelled indexes no
    matrix at all: whatever [a] and [b] are, it cannot panic, [result] stays
    the zero matrix it was allocated as, and one turn per row goroutine is
    enough for the call to return. *)
Theorem cancelled_at_entry_returns_zeros (a b : matrix) (size : nat)
    (sched : list mevent) :
  ∃ s, mrun a b size sched (MSys true (spawn size)) = Some s ∧
       ctx_done s = true ∧ m_result (work s) = make_matrix size ∧
       ((∀ i, i < size → 0 < turns i sched) → waited (work s) = true).
Proof.
  destruct (cancelled_at_entry_inv a b size sched (spawn size))
    as (m' & Hrun & Hres & Hlen & Hturn); simpl.
  - done.
  - apply Forall_forall. intros p [-> _]%elem_of_replicate. by left.
  - exists (MSys true m'). split_and!; [done..|]. simpl in *.
    rewrite length_replicate in Hlen, Hturn.
    intros Hfair. unfold waited. apply forallb_forall.
    intros p [i Hp]%list_elem_of_In%list_elem_of_lookup.
    assert (i < size) as Hi by (rewrite <- Hlen; by eapply lookup_lt_Some).
    rewrite (Hturn i Hi (or_introl (Hfair i Hi))) in Hp. by injection Hp as <-.
Qed.

Example cancelled_at_entry_ragged :
  mrun [[1]]%Z [] 2 [Run 1; Run 0] (MSys true (spawn 2)) =
  Some (MSys true (MState [[0; 0]; [0; 0]]%Z [Returned; Returned])).
Proof. reflexivity. Qed.

(** X3. A row goroutine writes its own row of [result] and nothing else: a step
    of goroutine [row] that does not panic leaves every other row and every
    other program counter as it was, and changes no length. *)
Theorem row_goroutine_writes_its_row_only (done : bool) (a b : matrix)
    (size row : nat) (m m' : mstate) :
  run_task done a b size row m = Some m' →
  length (m_result m') = length (m_result m) ∧
  length (m_tasks m') = length (m_tasks m) ∧
  (∀ i, i ≠ row → m_result m' !! i = m_result m !! i ∧
                  m_tasks m' !! i = m_tasks m !! i) ∧
  (∀ row0 row1, m_result m !! row = Some row0 → m_result m' !! row = Some row1 →
                length row1 = length row0).
Proof.
  unfold run_task. destruct (m_tasks m !! row) as [p|] eqn:Hp.
  2:{ intros [= <-]. split_and!; try done. intros r0 r1 ? ?. congruence. }
  destruct (multiplyRow_step done a b row size (m_result m) p) as [[r p']|] eqn:Hstep;
    [|done].
  simpl. intros [= <-]. simpl.
  assert (r = m_result m ∨
          ∃ rr j x, m_result m !! row = Some rr ∧ r = <[row := <[j := x]> rr]> (m_result m))
    as Hr.
  { destruct p as [j|j k|]; simpl in Hstep.
    - left. repeat case_match; by simplify_eq.
    - case_decide; [|left; by simplify_eq].
      destruct (a !! row) as [ra|]; [|done]. simpl in Hstep.
      destruct (ra !! k) as [x|]; [|done]. simpl in Hstep.
      destruct (b !! k) as [rb|]; [|done]. simpl in Hstep.
      destruct (rb !! j) as [y|]; [|done]. simpl in Hstep.
      destruct (m_result m !! row) as [rr|] eqn:Hrr; [|done]. simpl in Hstep.
      destruct (rr !! j) as [acc|]; [|done]. simpl in Hstep.
      injection Hstep as <- <-. right. by eexists _, _, _.
    - left. by simplify_eq. }
  split_and!.
  - destruct Hr as [->|(rr & j & x & _ & ->)]; [done|by rewrite length_insert].
  - by rewrite length_insert.
  - intros i Hne. split; [|by apply list_lookup_insert_ne].
    destruct Hr as [->|(rr & j & x & _ & ->)]; [done|].
    by apply list_lookup_insert_ne.
  - intros row0 row1 Hrow0 Hrow1.
    destruct Hr as [->|(rr & j & x & Hrr & ->)]; [congruence|].
    rewrite list_lookup_insert_eq in Hrow1 by (by eapply lookup_lt_Some).
    injection Hrow1 as <-. rewrite length_insert. congruence.
Qed.

Lemma row_goroutine_writes_its_row_only_witness :
  length [[5; 0]; [5; 0]]%Z = length [[0; 0]; [5; 0]]%Z.
Proof.
  refine (proj1 (row_goroutine_writes_its_row_only false
                   [[1; 2]; [3; 4]]%Z [[5; 6]; [7; 8]]%Z 2 0
                   (MState [[0; 0]; [5; 0]]%Z [InLoop 0 0; InLoop 0 1])
                   (MState [[5; 0]; [5; 0]]%Z [InLoop 0 1; InLoop 0 1]) _)).
  reflexivity.
Defined.

(** ** No overflow in the products the handlers compute *)

Lemma wrap_small (z : Z) :
  (goint.MinInt ≤ z ≤ goint.MaxInt)%Z → goint.wrap z = z.
Proof.
  unfold goint.MinInt, goint.MaxInt, goint.wrap, goint.intSize. intros Hz.
  rewrite Z.mod_small by lia. lia.
Qed.

Lemma cell_generateMatrix (intn : nat → nat → Z) (size i j : nat) :
  i < size → j < size → cell (generateMatrix intn size) i j = intn i j.
Proof.
  intros Hi Hj. unfold cell, generateMatrix.
  rewrite (list_lookup_total_correct _ i ((λ j, intn i j) <$> seq 0 size))
    by (by rewrite list_lookup_fmap, lookup_seq_lt).
  apply list_lookup_total_correct. by rewrite list_lookup_fmap, lookup_seq_lt.
Qed.

Lemma exact_dot_bounds (a b : matrix) (i j k : nat) :
  (∀ k', k' < k → (0 ≤ cell a i k' < 100)%Z ∧ (0 ≤ cell b k' j < 100)%Z) →
  (0 ≤ exact_dot a b i j k ≤ 9801 * Z.of_nat k)%Z.
Proof.
  induction k as [|k IH]; intros Hcells; simpl; [lia|].
  destruct (Hcells k) as [Ha Hb]; [lia|].
  assert (0 ≤ exact_dot a b i j k ≤ 9801 * Z.of_nat k)%Z as Hk.
  { apply IH. intros k' ?. apply Hcells. lia. }
  nia.
Qed.

(** X4. The matrices a handler generates hold values of [rand.Intn(100)], and the
    gate keeps the size at 2000 or below: then no addition and no
    multiplication of the product wraps around.  Every cell of the product is
    the exact sum of the products, between 0 and 9801·size. *)
Theorem generated_products_do_not_overflow (intn_a intn_b : nat → nat → Z)
    (size i j : nat) :
  (∀ i j, (0 ≤ intn_a i j < 100)%Z) → (∀ i j, (0 ≤ intn_b i j < 100)%Z) →
  size ≤ 2000 → i < size → j < size →
  cell (reference_product (generateMatrix intn_a size) (generateMatrix intn_b size) size) i j
  = exact_dot (generateMatrix intn_a size) (generateMatrix intn_b size) i j size ∧
  (0 ≤ exact_dot (generateMatrix intn_a size) (generateMatrix intn_b size) i j size
     ≤ 9801 * Z.of_nat size)%Z.
Proof.
  intros Ha Hb Hsize Hi Hj.
  assert (0 ≤ exact_dot (generateMatrix intn_a size) (generateMatrix intn_b size) i j size
            ≤ 9801 * Z.of_nat size)%Z as Hbound.
  { apply exact_dot_bounds. intros k Hk. by rewrite !cell_generateMatrix. }
  split; [|done].
  rewrite reference_product_cell, dot_upto_exact by done.
  apply wrap_small. unfold goint.MinInt, goint.MaxInt, goint.intSize. lia.
Qed.

Lemma generated_products_do_not_overflow_witness :
  (0 ≤ exact_dot (generateMatrix (λ i j, Z.of_nat (i + j) mod 100)%Z 2)
                 (generateMatrix (λ _ _, 99%Z) 2) 1 0 2 ≤ 9801 * Z.of_nat 2)%Z.
Proof.
  refine (proj2 (generated_products_do_not_overflow
                   (λ i j, Z.of_nat (i + j) mod 100)%Z (λ _ _, 99%Z) 2 1 0 _ _ _ _ _)).
  - intros i j. apply Z.mod_pos_bound. lia.
  - intros _ _. lia.
  - lia.
  - lia.
  - lia.
Defined.

(** ** The process as a whole *)

(** X5. No schedule makes the process panic: the handlers hand the multiplier
    square matrices of the size they pass, so none of its index expressions
    is ever out of range. *)
Theorem server_never_panics (v : version) (sched : list event) :
  is_Some (run v sched init).
Proof. apply run_total, sinv_init. Qed.

Lemma step_live_entries (v : version) (ev : event) (st st' : server) :
  sinv v st → step v ev st = Some st' →
  (∀ k c, activeRequests st !! k = Some c → c ∉ cancelled st) →
  ∀ k c, activeRequests st' !! k = Some c → c ∉ cancelled st'.
Proof.
  intros (Hreg & Hcan & _) Hstep Hlive k c.
  destruct (step_shared v ev st st' Hstep)
    as [-> ->|j jb _ Hj Hpc _ -> ->|j jb _ Hj Hpc _ -> ->]; [by apply Hlive| |].
  - unfold cancelPreviousRequest.
    destruct (activeRequests st !! key jb) as [c0|] eqn:Hk0; simpl; [|by apply Hlive].
    intros [Hne Hk]%lookup_delete_Some.
    rewrite elem_of_union, elem_of_singleton. intros [->|Hc]; [|by eapply Hlive].
    destruct (Hreg _ _ Hk) as (jb1 & Hj1 & Hkey1 & _).
    destruct (Hreg _ _ Hk0) as (jb2 & Hj2 & Hkey2 & _). congruence.
  - intros [[<- <-]|[_ ?]]%lookup_insert_Some; [|by eapply Hlive].
    intros Hc. destruct (Hcan _ Hc) as (jb' & Hjb' & Hr).
    rewrite Hj in Hjb'. injection Hjb' as <-. by rewrite Hpc in Hr.
Qed.

Lemma run_live_entries (v : version) (sched : list event) :
  ∀ st st', sinv v st → run v sched st = Some st' →
            (∀ k c, activeRequests st !! k = Some c → c ∉ cancelled st) →
            ∀ k c, activeRequests st' !! k = Some c → c ∉ cancelled st'.
Proof.
  induction sched as [|ev sched IH]; intros st st' Hinv; simpl.
  - by intros [= <-].
  - destruct (step v ev st) as [st1|] eqn:Hstep; [|done]. simpl. intros Hrun Hlive.
    apply (IH st1 st'); [by eapply step_sinv|done|]. by eapply step_live_entries.
Qed.

(** X6. In every reachable state an entry of [activeRequests] names a job of that
    key which has stored its cancel function, no job is stored under two
    keys, the handle of a stored entry has not been triggered, and only jobs
    that have registered have a cancelled context. *)
Theorem registry_entries_are_live (v : version) (sched : list event) (st : server) :
  run v sched init = Some st →
  (∀ k c, activeRequests st !! k = Some c →
          (c ∉ cancelled st) ∧
          (∃ jb, jobs st !! c = Some jb ∧ key jb = k ∧ has_registered (j_pc jb) = true)) ∧
  (∀ k k' c, activeRequests st !! k = Some c → activeRequests st !! k' = Some c → k = k') ∧
  (∀ c, c ∈ cancelled st →
        ∃ jb, jobs st !! c = Some jb ∧ has_registered (j_pc jb) = true).
Proof.
  intros Hrun. pose proof (run_sinv v sched init st (sinv_init v) Hrun) as Hinv.
  pose proof Hinv as (Hreg & Hcan & _). split_and!.
  - intros k c Hk. split; [|by apply Hreg].
    eapply (run_live_entries v sched init st); [apply sinv_init|done| |done].
    intros k' c'. simpl. by rewrite lookup_empty.
  - intros k k' c Hk Hk'.
    destruct (Hreg _ _ Hk) as (jb1 & Hj1 & Hkey1 & _).
    destruct (Hreg _ _ Hk') as (jb2 & Hj2 & Hkey2 & _). congruence.
  - done.
Qed.

Lemma registry_entries_are_live_witness :
  (0 ∉ cancelled st_registered) ∧
  (∃ jb, jobs st_registered !! 0 = Some jb ∧ key jb = "10.0.0.1" ∧
         has_registered (j_pc jb) = true).
Proof.
  refine (proj1 (registry_entries_are_live V2
                   [Accept req_first; Handler 0; Handler 0] st_registered _)
            "10.0.0.1" 0 _); reflexivity.
Defined.

(** ** Responses are written once *)

Lemma job_trans_finished (v : version) (done : bool) (jb jb' : job) :
  job_trans v done jb jb' → j_pc jb = Finished → jb' = jb.
Proof. by destruct 1. Qed.

Lemma run_finished_stable (v : version) (j : nat) (sched : list event) :
  ∀ st st' jb, run v sched st = Some st' → jobs st !! j = Some jb →
               j_pc jb = Finished → jobs st' !! j = Some jb.
Proof.
  induction sched as [|ev sched IH]; intros st st' jb; simpl.
  - by intros [= <-].
  - destruct (step v ev st) as [st1|] eqn:Hstep; [|done]. simpl. intros Hrun Hj Hfin.
    destruct (step_job v ev st st1 j jb Hstep Hj) as (jb1 & Hj1 & Htr).
    apply job_trans_finished in Htr as ->; [|done]. by eapply IH.
Qed.

Lemma run_job_req (v : version) (j : nat) (sched : list event) :
  ∀ st st' jb, run v sched st = Some st' → jobs st !! j = Some jb →
               ∃ jb', jobs st' !! j = Some jb' ∧ j_req jb' = j_req jb.
Proof.
  induction sched as [|ev sched IH]; intros st st' jb; simpl.
  - intros [= <-] ?. by exists jb.
  - destruct (step v ev st) as [st1|] eqn:Hstep; [|done]. simpl. intros Hrun Hj.
    destruct (step_job v ev st st1 j jb Hstep Hj) as (jb1 & Hj1 & Htr).
    apply job_trans_req in Htr as [Hreq _].
    destruct (IH st1 st' jb1 Hrun Hj1) as (jb' & ? & ?). exists jb'.
    split; [done|congruence].
Qed.

(** X7. A handler writes its response in one step, the one that finishes it: as
    long as a job has not finished, its writer is untouched (status 200, empty
    body), and once it has finished, nothing that happens afterwards changes
    the job or its response.  The request of a job never changes. *)
Theorem response_is_written_once (v : version) (sched sched' : list event)
    (st st' : server) (j : nat) (jb : job) :
  run v sched init = Some st → run v sched' st = Some st' →
  jobs st !! j = Some jb →
  (j_pc jb ≠ Finished → j_resp jb = Response 200 EmptyString) ∧
  (j_pc jb = Finished → jobs st' !! j = Some jb) ∧
  (∃ jb', jobs st' !! j = Some jb' ∧ j_req jb' = j_req jb).
Proof.
  intros Hrun Hrun' Hj.
  pose proof (run_sinv v sched init st (sinv_init v) Hrun) as (_ & _ & Hjobs).
  specialize (Hjobs j jb Hj). unfold job_inv in Hjobs. split_and!.
  - intros Hpc. destruct (j_pc jb); try done.
    + by destruct Hjobs as [_ ?].
    + by destruct Hjobs as (_ & _ & _ & _ & ?).
    + by destruct Hjobs as (_ & _ & ?).
  - intros Hfin. by eapply run_finished_stable.
  - by eapply run_job_req.
Qed.

Lemma response_is_written_once_witness :
  jobs st_after_report !! 0 = Some (Job req_first Finished success_first).
Proof.
  refine (proj1 (proj2 (response_is_written_once V2 (sched_alone ++ [Handler 0])
                          sched_after_report st_reported st_after_report 0
                          (Job req_first Finished success_first) _ _ _)) eq_refl).
  - vm_compute. reflexivity.
  - vm_compute. reflexivity.
  - reflexivity.
Defined.

(** ** What a finished job has answered *)

Lemma partial_rows_square (done : bool) (a b : matrix) (size : nat) (r : matrix) :
  partial_rows done a b size r → square size r.
Proof.
  intros [Hlen Hrows]. split; [done|]. apply Forall_lookup. intros i row Hrow.
  assert (i < size) as Hi by (rewrite <- Hlen; by eapply lookup_lt_Some).
  destruct (Hrows i Hi) as (c & ? & _ & Hrow'). rewrite Hrow in Hrow'.
  injection Hrow' as ->. rewrite length_app, length_done_cols, length_replicate. lia.
Qed.

(** X8. A finished job has answered in one of four ways, each with its cause: the
    large-number line only when its size passed the gate's bound and its
    context was cancelled; status 500 with the storage line only in the
    handler that persists, when [storeRequestInfo] failed, before anything was
    computed; the cancellation line only when its context was cancelled; or
    the success response carrying the full product.  The handler without
    persistence always answers with status 200. *)
Theorem finished_job_has_one_of_four_answers (v : version) (sched : list event)
    (st : server) (j : nat) (jb : job) :
  run v sched init = Some st → jobs st !! j = Some jb → j_pc jb = Finished →
  ((sizing v (size_param (j_req jb)) = Oversize ∧ j ∈ cancelled st ∧
    j_resp jb = Response 200 msg_large) ∨
   (persists v = true ∧ store_fails (j_req jb) = true ∧
    (∃ n, sizing v (size_param (j_req jb)) = Sized n) ∧
    j_resp jb = Response 500 msg_store) ∨
   (∃ n, computes v (j_req jb) n ∧ j ∈ cancelled st ∧
         j_resp jb = Response 200 msg_cancelled) ∨
   (∃ n, computes v (j_req jb) n ∧
         j_resp jb =
           Response 200
             (write_success EmptyString n (elapsed_ms (j_req jb))
                (reference_product
                   (generateMatrix (intn_a (j_req jb)) (Z.to_nat n))
                   (generateMatrix (intn_b (j_req jb)) (Z.to_nat n))
                   (Z.to_nat n))))) ∧
  (persists v = false → status (j_resp jb) = 200).
Proof.
  intros Hrun Hj Hfin.
  pose proof (run_sinv v sched init st (sinv_init v) Hrun) as (_ & _ & Hjobs).
  specialize (Hjobs j jb Hj). unfold job_inv in Hjobs. rewrite Hfin in Hjobs.
  destruct Hjobs as [(Hs & Hd & Hw)|[(n & Hs & Hp & Hw)|[(n & Hc & Hd & Hw)|(n & Hc & Hw)]]].
  - apply bool_decide_eq_true in Hd. split; [by left|]. by rewrite Hw.
  - apply andb_true_iff in Hp as [Hp Hf]. split.
    + right. left. split_and!; [done..|by exists n|done].
    + intros Hv. congruence.
  - apply bool_decide_eq_true in Hd. split; [|by rewrite Hw].
    right. right. left. by exists n.
  - split; [|by rewrite Hw]. right. right. right. by exists n.
Qed.

Lemma finished_job_has_one_of_four_answers_witness :
  status (j_resp (Job req_second Finished (Response 200 msg_cancelled))) = 200.
Proof.
  refine (proj2 (finished_job_has_one_of_four_answers V1
                   (sched_cancel_mid ++ sched_cancel_rest)
                   (default init (run V1 (sched_cancel_mid ++ sched_cancel_rest) init)) 0
                   (Job req_second Finished (Response 200 msg_cancelled)) _ _ _) eq_refl).
  - vm_compute. reflexivity.
  - vm_compute. reflexivity.
  - reflexivity.
Defined.

(** ** The sizes the multiplier is called with *)

(** X9. Whatever the size parameter, a job inside the multiplier, or between its
    return and the final check, has a size from 1 to 2000 and matrices of
    exactly that size: both inputs, the result under construction with one
    goroutine per row, and the result handed to the final check, cancelled or
    not. *)
Theorem multiplier_sizes_are_bounded (v : version) (sched : list event)
    (st : server) (j : nat) (jb : job) :
  run v sched init = Some st → jobs st !! j = Some jb →
  (∀ n a b m, j_pc jb = Computing n a b m →
     (1 ≤ n ≤ 2000)%Z ∧ square (Z.to_nat n) a ∧ square (Z.to_nat n) b ∧
     square (Z.to_nat n) (m_result m) ∧ length (m_tasks m) = Z.to_nat n) ∧
  (∀ n result, j_pc jb = AtReport n result →
     (1 ≤ n ≤ 2000)%Z ∧ square (Z.to_nat n) result).
Proof.
  intros Hrun Hj.
  pose proof (run_sinv v sched init st (sinv_init v) Hrun) as (_ & _ & Hjobs).
  specialize (Hjobs j jb Hj). unfold job_inv in Hjobs. split.
  - intros n a b m Hpc. rewrite Hpc in Hjobs.
    destruct Hjobs as ([Hs _] & -> & -> & Hm & _).
    split_and!; try apply generateMatrix_square.
    + by eapply sizing_bounds.
    + by eapply sizing_bounds.
    + by eapply minv_rows_square.
    + by destruct Hm as (? & _).
  - intros n result Hpc. rewrite Hpc in Hjobs. destruct Hjobs as ([Hs _] & Hrows & _).
    split_and!.
    + by eapply sizing_bounds.
    + by eapply sizing_bounds.
    + by eapply partial_rows_square.
Qed.

Lemma multiplier_sizes_are_bounded_witness :
  (1 ≤ 1 ≤ 2000)%Z ∧ square (Z.to_nat 1) [[6%Z]].
Proof.
  refine (proj2 (multiplier_sizes_are_bounded V2 sched_alone st_at_report 0
                   (Job req_first (AtReport 1 [[6%Z]]) fresh) _ _) 1%Z [[6%Z]] _).
  - vm_compute. reflexivity.
  - reflexivity.
  - reflexivity.
Defined.

(** ** Composing the registry operations *)

(** X10. Superseding right after registering triggers exactly the handle just
    stored and leaves no entry for the key; a handle that the registration
    overwrote is not triggered by it, and nothing in the map leads to it any
    more under that key.  Superseding twice is superseding once. *)
Theorem supersede_after_register (ip : string) (cancel : nat) (st : server) :
  cancelPreviousRequest ip (register ip cancel st) =
    Server (delete ip (activeRequests st)) ({[cancel]} ∪ cancelled st) (jobs st) ∧
  (∀ old, activeRequests st !! ip = Some old → old ≠ cancel → old ∉ cancelled st →
          (old ∉ cancelled (cancelPreviousRequest ip (register ip cancel st))) ∧
          activeRequests (cancelPreviousRequest ip (register ip cancel st)) !! ip = None) ∧
  cancelPreviousRequest ip (cancelPreviousRequest ip st) = cancelPreviousRequest ip st.
Proof.
  assert (cancelPreviousRequest ip (register ip cancel st) =
          Server (delete ip (activeRequests st)) ({[cancel]} ∪ cancelled st) (jobs st))
    as Heq.
  { unfold cancelPreviousRequest, register. simpl. rewrite lookup_insert_eq.
    by rewrite delete_insert_eq. }
  split_and!; [done| |].
  - intros old Hold Hne Hopen. rewrite Heq. simpl. split.
    + rewrite elem_of_union, elem_of_singleton. by intros [?|?].
    + apply lookup_delete_eq.
  - assert (activeRequests (cancelPreviousRequest ip st) !! ip = None) as Hnone.
    { unfold cancelPreviousRequest.
      destruct (activeRequests st !! ip) eqn:Hip; [apply lookup_delete_eq|done]. }
    revert Hnone. generalize (cancelPreviousRequest ip st). intros st1 Hnone.
    unfold cancelPreviousRequest. by rewrite Hnone.
Qed.

Lemma supersede_after_register_witness :
  (1 ∉ cancelled (cancelPreviousRequest "10.0.0.1" (register "10.0.0.1" 2 st_overwritten))) ∧
  activeRequests (cancelPreviousRequest "10.0.0.1" (register "10.0.0.1" 2 st_overwritten))
    !! "10.0.0.1" = None.
Proof.
  refine (proj1 (proj2 (supersede_after_register "10.0.0.1" 2 st_overwritten)) 1 _ _ _).
  - reflexivity.
  - discriminate.
  - vm_compute. discriminate.
Defined.

(** ** Handles that the map has lost *)

Lemma step_orphan (v : version) (ev : event) (st st' : server) (j : nat) (jb : job) :
  sinv v st → step v ev st = Some st' → jobs st !! j = Some jb →
  has_registered (j_pc jb) = true → j ∉ cancelled st →
  activeRequests st !! key jb ≠ Some j →
  (j ∉ cancelled st') ∧ activeRequests st' !! key jb ≠ Some j.
Proof.
  intros Hinv Hstep Hj Hr Hopen Hlost. pose proof Hinv as (Hreg & _ & _).
  destruct (step_shared v ev st st' Hstep)
    as [-> ->|j0 jb0 _ Hj0 Hpc0 _ -> ->|j0 jb0 _ Hj0 Hpc0 _ -> ->]; [done| |].
  - unfold cancelPreviousRequest.
    destruct (activeRequests st !! key jb0) as [c0|] eqn:Hk0; simpl; [|done]. split.
    + rewrite elem_of_union, elem_of_singleton. intros [->|?]; [|done].
      destruct (Hreg _ _ Hk0) as (jb1 & Hj1 & Hkey1 & _).
      rewrite Hj in Hj1. injection Hj1 as <-. by rewrite <- Hkey1 in Hk0.
    + by intros [_ ?]%lookup_delete_Some.
  - split; [done|]. intros [[_ <-]|[_ ?]]%lookup_insert_Some; [|done].
    rewrite Hj in Hj0. injection Hj0 as <-. by rewrite Hpc0 in Hr.
Qed.

(** X11. A registered job whose entry is no longer in the map while its context is
    still open (its registration was overwritten by a job that had superseded
    before it) is out of reach for good: no later request cancels its context,
    and its entry never comes back. *)
Theorem overwritten_job_is_never_cancelled (v : version) (sched sched' : list event)
    (st st' : server) (j : nat) (jb : job) :
  run v sched init = Some st → jobs st !! j = Some jb →
  has_registered (j_pc jb) = true → j ∉ cancelled st →
  activeRequests st !! key jb ≠ Some j →
  run v sched' st = Some st' →
  (j ∉ cancelled st') ∧ activeRequests st' !! key jb ≠ Some j.
Proof.
  intros Hrun Hj Hr Hopen Hlost.
  pose proof (run_sinv v sched init st (sinv_init v) Hrun) as Hinv. clear Hrun.
  revert st jb Hj Hr Hopen Hlost Hinv.
  induction sched' as [|ev sched' IH]; intros st jb Hj Hr Hopen Hlost Hinv; simpl.
  - by intros [= <-].
  - destruct (step v ev st) as [st1|] eqn:Hstep; [|done]. simpl. intros Hrun'.
    destruct (step_orphan v ev st st1 j jb Hinv Hstep Hj Hr Hopen Hlost) as [Ho Hl].
    destruct (step_job v ev st st1 j jb Hstep Hj) as (jb1 & Hj1 & Htr).
    apply job_trans_req in Htr as [Hreq Hr1].
    assert (key jb1 = key jb) as Hkey by (unfold key; by rewrite Hreq).
    rewrite <- Hkey. apply (IH st1 jb1); try done; [by apply Hr1|by rewrite Hkey|].
    by eapply step_sinv.
Qed.

Lemma overwritten_job_is_never_cancelled_witness :
  (0 ∉ cancelled st_third) ∧ activeRequests st_third !! "10.0.0.1" ≠ Some 0.
Proof.
  refine (overwritten_job_is_never_cancelled V2 sched_overwritten sched_third
            st_overwritten st_third 0 (Job req_first AtSizing fresh) _ _ _ _ _ _).
  - vm_compute. reflexivity.
  - reflexivity.
  - reflexivity.
  - vm_compute. discriminate.
  - vm_compute. discriminate.
  - vm_compute. reflexivity.
Defined.

Example third_job_cancels_the_second_only :
  bool_decide (1 ∈ cancelled st_third) = true ∧
  bool_decide (0 ∈ cancelled st_third) = false ∧
  activeRequests st_third !! "10.0.0.1" = Some 2.
Proof. split_and!; vm_compute; reflexivity. Qed.

(** ** Keys of addresses without brackets *)

Lemma index_none_last_none (c : ascii) (s : string) :
  index_byte c s = None → last_index_byte c s = None.
Proof.
  induction s as [|x s IH]; simpl; [done|].
  destruct (Ascii.eqb x c); [done|].
  destruct (index_byte c s); [done|]. intros _. by rewrite IH.
Qed.

Lemma last_none_index_none (c : ascii) (s : string) :
  last_index_byte c s = None → index_byte c s = None.
Proof.
  induction s as [|x s IH]; simpl; [done|].
  destruct (last_index_byte c s); [done|].
  destruct (Ascii.eqb x c); [done|]. intros _. by rewrite IH.
Qed.

Lemma last_index_byte_rest (c : ascii) (s : string) (i : nat) :
  last_index_byte c s = Some i → index_byte c (str_drop (S i) s) = None.
Proof.
  revert i. induction s as [|x s IH]; intros i; simpl; [done|].
  destruct (last_index_byte c s) as [i'|] eqn:Hlast.
  - intros [= <-]. simpl. by apply IH.
  - destruct (Ascii.eqb x c); [|done]. intros [= <-].
    change (str_drop 1 (String x s)) with s. by apply last_none_index_none.
Qed.

Lemma SplitHostPort_unbracketed (hostport host port : string) :
  net.first_byte_is "[" hostport = false →
  net.SplitHostPort hostport = Some (host, port) →
  ∃ i, last_index_byte ":" hostport = Some i ∧ host = slice 0 i hostport ∧
       index_byte ":" host = None ∧ port = str_drop (S i) hostport.
Proof.
  intros Hb. unfold net.SplitHostPort. rewrite Hb.
  destruct (last_index_byte ":" hostport) as [i|] eqn:Hi; [|done].
  destruct (index_byte ":" (slice 0 i hostport)) eqn:Hhost; [done|].
  cbn [mbind option_bind].
  destruct (index_byte "[" (str_drop _ _)); [done|].
  destruct (index_byte "]" (str_drop _ _)); [done|].
  intros [= <- <-]. exists i. split_and!; [done..|].
  by replace (i + 1) with (S i) by lia.
Qed.

(** X12. For an address that does not start with a bracket the key holds no colon
    when the split succeeds, and neither does the port that was cut off; so
    taking the key of a key changes nothing. *)
Theorem extractIP_idempotent_without_brackets (remoteAddr : string) :
  net.first_byte_is "[" remoteAddr = false →
  extractIP (extractIP remoteAddr) = extractIP remoteAddr ∧
  (∀ host port, net.SplitHostPort remoteAddr = Some (host, port) →
                index_byte ":" host = None ∧ index_byte ":" port = None).
Proof.
  intros Hb. split.
  - unfold extractIP at 2 3.
    destruct (net.SplitHostPort remoteAddr) as [[host port]|] eqn:Hsplit.
    + destruct (SplitHostPort_unbracketed _ _ _ Hb Hsplit) as (i & _ & _ & Hnone & _).
      unfold extractIP, net.SplitHostPort.
      by rewrite (index_none_last_none _ _ Hnone).
    + unfold extractIP. by rewrite Hsplit.
  - intros host port Hsplit.
    destruct (SplitHostPort_unbracketed _ _ _ Hb Hsplit) as (i & Hi & _ & Hnone & ->).
    split; [done|]. by apply last_index_byte_rest.
Qed.

Lemma extractIP_idempotent_without_brackets_witness :
  extractIP (extractIP "192.168.1.9:51234") = extractIP "192.168.1.9:51234" ∧
  (∀ host port, net.SplitHostPort "192.168.1.9:51234" = Some (host, port) →
                index_byte ":" host = None ∧ index_byte ":" port = None).
Proof. apply extractIP_idempotent_without_brackets. reflexivity. Defined.

(** With brackets the key may split again. *)
Example extractIP_bracketed_splits_again :
  extractIP "[a:1]:2" = "a:1" ∧ extractIP (extractIP "[a:1]:2") = "a".
Proof. split; vm_compute; reflexivity. Qed.

(** ** A job served without interference *)

Lemma turns_app (i : nat) (s1 s2 : list mevent) :
  turns i (s1 ++ s2) = turns i s1 + turns i s2.
Proof.
  induction s1 as [|[|r] s1 IH]; simpl; [done|done|]. rewrite IH. lia.
Qed.

Lemma turns_replicate (i row n : nat) :
  turns i (Run <$> replicate n row) = if Nat.eqb row i then n else 0.
Proof.
  induction n as [|n IH]; [by destruct (Nat.eqb row i)|].
  change (turns i (Run <$> replicate (S n) row))
    with ((if Nat.eqb row i then 1 else 0) + turns i (Run <$> replicate n row)).
  rewrite IH. by destruct (Nat.eqb row i).
Qed.

Lemma turns_row_turns (f : nat → nat) (i size : nat) :
  i < size →
  f i ≤ turns i (Run <$> flat_map (λ row, replicate (f row) row) (seq 0 size)).
Proof.
  induction size as [|size IH]; intros Hi; [lia|].
  rewrite seq_S, flat_map_app, fmap_app, turns_app. simpl.
  rewrite app_nil_r, turns_replicate.
  destruct (Nat.eqb_spec size i) as [->|Hne]; [lia|].
  assert (i < size) as Hlt by lia. specialize (IH Hlt). lia.
Qed.

Lemma not_cancel_in_runs (rows : list nat) : Cancel ∉ Run <$> rows.
Proof. intros (row & ? & _)%list_elem_of_fmap. done. Qed.

Lemma mrun_runs_open (a b : matrix) (size : nat) (rows : list nat) :
  ∀ s s', mrun a b size (Run <$> rows) s = Some s' → ctx_done s' = ctx_done s.
Proof.
  induction rows as [|row rows IH]; intros s s'; simpl; [by intros [= <-]|].
  destruct (run_task _ _ _ _ _ _) as [m|]; [|done]. simpl.
  intros Hrun. by apply IH in Hrun.
Qed.

Lemma run_rows (v : version) (j : nat) (r : request) (w : response) (n : Z)
    (a b : matrix) (rows : list nat) :
  ∀ st m m',
    jobs st !! j = Some (Job r (Computing n a b m) w) → j ∉ cancelled st →
    mrun a b (Z.to_nat n) (Run <$> rows) (MSys false m) = Some (MSys false m') →
    ∃ st', run v (Row j <$> rows) st = Some st' ∧
           jobs st' !! j = Some (Job r (Computing n a b m') w) ∧
           cancelled st' = cancelled st ∧ activeRequests st' = activeRequests st.
Proof.
  induction rows as [|row rows IH]; intros st m m' Hj Hopen; simpl.
  { intros [= <-]. by exists st. }
  destruct (run_task false a b (Z.to_nat n) row m) as [m1|] eqn:Htask; [|done].
  simpl. intros Hrun. rewrite Hj. unfold row_step. simpl.
  unfold ctx_is_done. rewrite (bool_decide_eq_false_2 _ Hopen), Htask. simpl.
  assert (j < length (jobs st)) as Hlt by (by eapply lookup_lt_Some).
  destruct (IH (set_job j (Job r (Computing n a b m1) w) st) m1 m')
    as (st' & Hrun' & Hj' & Hc & Hr); [|done|done|].
  { by rewrite lookup_set_job, decide_True. }
  by exists st'.
Qed.

Lemma run_cons (v : version) (ev : event) (sched : list event) (st : server) :
  run v (ev :: sched) st = step v ev st ≫= run v sched.
Proof. reflexivity. Qed.

Lemma step_handler (v : version) (j : nat) (jb : job) (st : server) :
  jobs st !! j = Some jb → step v (Handler j) st = Some (handler_step v j jb st).
Proof. intros Hj. simpl. by rewrite Hj. Qed.

Lemma jobs_cancelPreviousRequest (ip : string) (st : server) :
  jobs (cancelPreviousRequest ip st) = jobs st.
Proof. unfold cancelPreviousRequest. by destruct (activeRequests st !! ip). Qed.

Lemma run_accept_phase (v : version) (j : nat) (r : request) (w : response)
    (n : Z) (st : server) :
  jobs st !! j = Some (Job r AtSupersede w) →
  sizing v (size_param r) = Sized n → persists v && store_fails r = false →
  ∃ st3,
    run v [Handler j; Handler j; Handler j] st = Some st3 ∧
    jobs st3 !! j =
      Some (Job r (Computing n (generateMatrix (intn_a r) (Z.to_nat n))
                     (generateMatrix (intn_b r) (Z.to_nat n))
                     (spawn (Z.to_nat n))) w) ∧
    cancelled st3 = cancelled (cancelPreviousRequest (extractIP (RemoteAddr r)) st) ∧
    activeRequests st3 =
      <[extractIP (RemoteAddr r) := j]>
        (activeRequests (cancelPreviousRequest (extractIP (RemoteAddr r)) st)).
Proof.
  intros Hj Hs Hp.
  assert (j < length (jobs st)) as Hlt by (by eapply lookup_lt_Some).
  set (ip := extractIP (RemoteAddr r)).
  set (st1 := set_job j (Job r AtRegister w) (cancelPreviousRequest ip st)).
  set (st2 := set_job j (Job r AtSizing w) (register ip j st1)).
  assert (jobs st1 !! j = Some (Job r AtRegister w)) as Hj1.
  { unfold st1. rewrite lookup_set_job by (by rewrite jobs_cancelPreviousRequest).
    by rewrite decide_True. }
  assert (j < length (jobs st1)) as Hlt1 by (by eapply lookup_lt_Some).
  assert (jobs st2 !! j = Some (Job r AtSizing w)) as Hj2.
  { unfold st2. by rewrite lookup_set_job, decide_True. }
  assert (j < length (jobs st2)) as Hlt2 by (by eapply lookup_lt_Some).
  eexists. split.
  - rewrite run_cons, (step_handler _ _ _ _ Hj). cbn [mbind option_bind].
    change (handler_step v j (Job r AtSupersede w) st) with st1.
    rewrite run_cons, (step_handler _ _ _ _ Hj1). cbn [mbind option_bind].
    change (handler_step v j (Job r AtRegister w) st1) with st2.
    rewrite run_cons, (step_handler _ _ _ _ Hj2). cbn [mbind option_bind].
    unfold handler_step. cbn [j_pc j_req j_resp]. rewrite Hs, Hp. reflexivity.
  - split_and!.
    + by rewrite lookup_set_job, decide_True.
    + reflexivity.
    + reflexivity.
Qed.

Lemma run_report_phase (v : version) (j : nat) (r : request) (w : response)
    (n : Z) (a b : matrix) (m : mstate) (st : server) :
  jobs st !! j = Some (Job r (Computing n a b m) w) →
  waited m = true → j ∉ cancelled st →
  ∃ st',
    run v [Handler j; Handler j] st = Some st' ∧
    jobs st' !! j =
      Some (Job r Finished
              (Response (status w) (write_success (body w) n (elapsed_ms r) (m_result m)))) ∧
    cancelled st' = cancelled st ∧ activeRequests st' = activeRequests st.
Proof.
  intros Hj Hw Hopen.
  assert (j < length (jobs st)) as Hlt by (by eapply lookup_lt_Some).
  set (st1 := set_job j (Job r (AtReport n (m_result m)) w) st).
  assert (jobs st1 !! j = Some (Job r (AtReport n (m_result m)) w)) as Hj1.
  { unfold st1. by rewrite lookup_set_job, decide_True. }
  assert (j < length (jobs st1)) as Hlt1 by (by eapply lookup_lt_Some).
  assert (ctx_is_done j st1 = false) as Hd.
  { by apply bool_decide_eq_false. }
  eexists. split.
  - rewrite run_cons, (step_handler _ _ _ _ Hj). cbn [mbind option_bind].
    unfold handler_step at 1. cbn [j_pc j_req j_resp]. rewrite Hw. fold st1.
    rewrite run_cons, (step_handler _ _ _ _ Hj1). cbn [mbind option_bind].
    unfold handler_step. cbn [j_pc j_req j_resp]. rewrite Hd. reflexivity.
  - split_and!; [|done..]. by rewrite lookup_set_job, decide_True.
Qed.

(** X13. A job that arrives with a size the gate lets through (and, where the
    handler persists, is stored without error) and is then served alone, by
    the schedule [sched_serve], finishes with the success response carrying
    the full product of the matrices it generated; its cancel function is
    the entry of its key and its context is still open. *)
Theorem job_served_alone_succeeds (v : version) (sched : list event)
    (st : server) (j : nat) (jb : job) (n : Z) :
  run v sched init = Some st → jobs st !! j = Some jb → j_pc jb = AtSupersede →
  sizing v (size_param (j_req jb)) = Sized n →
  persists v && store_fails (j_req jb) = false →
  ∃ st',
    run v (sched_serve j (Z.to_nat n)) st = Some st' ∧
    jobs st' !! j =
      Some (Job (j_req jb) Finished
              (Response 200
                 (write_success EmptyString n (elapsed_ms (j_req jb))
                    (reference_product
                       (generateMatrix (intn_a (j_req jb)) (Z.to_nat n))
                       (generateMatrix (intn_b (j_req jb)) (Z.to_nat n))
                       (Z.to_nat n))))) ∧
    activeRequests st' !! key jb = Some j ∧ j ∉ cancelled st'.
Proof.
  intros Hrun Hj Hpc Hs Hp.
  pose proof (run_sinv v sched init st (sinv_init v) Hrun) as (Hreg & Hcan & Hjobs).
  specialize (Hjobs j jb Hj). unfold job_inv in Hjobs. rewrite Hpc in Hjobs.
  destruct jb as [r p w]. simpl in *. subst p w. unfold key. simpl.
  set (ip := extractIP (RemoteAddr r)).
  set (size := Z.to_nat n).
  set (a := generateMatrix (intn_a r) size). set (b := generateMatrix (intn_b r) size).
  assert (j ∉ cancelled (cancelPreviousRequest ip st)) as Hopen.
  { assert (∀ c, (∃ jb, jobs st !! c = Some jb ∧ has_registered (j_pc jb) = true) →
                 c ≠ j) as Hne.
    { intros c (jb & Hc & Hr) ->. rewrite Hj in Hc. by injection Hc as <-. }
    unfold cancelPreviousRequest.
    destruct (activeRequests st !! ip) as [c0|] eqn:Hk; simpl.
    - rewrite elem_of_union, elem_of_singleton. intros [Heq|Hc].
      + destruct (Hreg _ _ Hk) as (jb & ? & _ & ?). apply (Hne c0); [|done].
        by exists jb.
      + by apply (Hne j); [apply Hcan|].
    - intros Hc. by apply (Hne j); [apply Hcan|]. }
  destruct (run_accept_phase v j r fresh n st Hj Hs Hp) as (st3 & Hrun3 & Hj3 & Hc3 & Hr3).
  fold ip size a b in Hj3, Hc3, Hr3.
  destruct (mrun_spec a b size (generateMatrix_square _ _) (generateMatrix_square _ _)
              (Run <$> row_turns size) (MSys false (spawn size)))
    as ([d m'] & Hmrun & Hinv & Hd & Hleft); [apply minv_spawn|].
  simpl in Hd. rewrite (Hd (not_cancel_in_runs _)) in Hmrun, Hinv. simpl in Hinv.
  assert (waited m' = true) as Hw.
  { unfold waited. apply forallb_forall.
    intros p [i Hp']%list_elem_of_In%list_elem_of_lookup.
    destruct Hinv as (Ht & _).
    assert (i < size) as Hi by (rewrite <- Ht; by eapply lookup_lt_Some).
    destruct (Hleft i (AtSelect 0)) as (p' & Hp'' & Hle).
    { simpl. by apply lookup_replicate. }
    simpl in Hp''. rewrite Hp' in Hp''. injection Hp'' as <-.
    pose proof (turns_row_turns (λ _, size * (size + 2) + 1) i size Hi) as Hturns.
    unfold row_turns in Hle. simpl in Hle, Hturns. rewrite Nat.sub_0_r in Hle.
    assert (steps_left size p = 0) as Hzero by lia.
    destruct p; simpl in Hzero; [nia..|done]. }
  destruct (run_rows v j r fresh n a b (row_turns size) st3 (spawn size) m')
    as (st4 & Hrun4 & Hj4 & Hc4 & Hr4); [done|by rewrite Hc3|done|].
  destruct (run_report_phase v j r fresh n a b m' st4 Hj4 Hw)
    as (st5 & Hrun5 & Hj5 & Hc5 & Hr5); [by rewrite Hc4, Hc3|].
  exists st5. split_and!.
  - change (run v ([Handler j; Handler j; Handler j] ++
                    (Row j <$> row_turns size) ++ [Handler j; Handler j]) st
            = Some st5).
    rewrite run_app, Hrun3. cbn [mbind option_bind].
    by rewrite run_app, Hrun4.
  - rewrite Hj5.
    pose proof (result_reference a b size (MSys false m') Hinv Hw eq_refl) as Hres.
    simpl in Hres. by rewrite Hres.
  - rewrite Hr5, Hr4, Hr3. apply lookup_insert_eq.
  - by rewrite Hc5, Hc4, Hc3.
Qed.

Lemma job_served_alone_succeeds_witness :
  ∃ st', run V2 (sched_serve 0 (Z.to_nat 1)) (Server ∅ ∅ [Job req_first AtSupersede fresh])
           = Some st' ∧
         jobs st' !! 0 = Some (Job req_first Finished success_first).
Proof.
  destruct (job_served_alone_succeeds V2 [Accept req_first]
              (Server ∅ ∅ [Job req_first AtSupersede fresh]) 0
              (Job req_first AtSupersede fresh) 1)
    as (st' & Hrun & Hj & _); try reflexivity.
  exists st'. split; [exact Hrun|]. rewrite Hj. reflexivity.
Defined.

(** ** Sizes written in decimal *)

Ltac eval_digit :=
  match goal with
  | |- context [strconv.digit ?c] =>
      let x := eval vm_compute in (strconv.digit c) in
      change (strconv.digit c) with x
  end.

Lemma small_digits_uint (d : Decimal.uint) (acc : Z) :
  strconv.small_digits (NilEmpty.string_of_uint d) acc = Some (uint_value d acc).
Proof.
  revert acc. induction d; intros acc; simpl; try done;
    eval_digit; rewrite IHd; do 2 f_equal; lia.
Qed.

Lemma uint_value_ge (d : Decimal.uint) (acc : Z) :
  (0 ≤ acc)%Z → (acc ≤ uint_value d acc)%Z.
Proof.
  revert acc. induction d; intros acc Hacc; simpl; try lia;
    (etrans; [|apply IHd]; lia).
Qed.

Lemma parse_uint_loop_digit (c : ascii) (s : string) (n : Z) :
  strconv.is_digit c = true → (n < 1844674407370955162)%Z →
  (n * 10 + strconv.digit c ≤ 18446744073709551615)%Z →
  strconv.parse_uint_loop (String c s) n =
  strconv.parse_uint_loop s (n * 10 + strconv.digit c).
Proof.
  intros Hc Hn Hn1. cbn [strconv.parse_uint_loop]. rewrite Hc.
  change (strconv.maxUint64 / 10 + 1)%Z with 1844674407370955162%Z.
  change strconv.maxUint64 with 18446744073709551615%Z.
  rewrite (proj2 (Z.leb_gt _ _)) by lia. cbn zeta.
  by rewrite (proj2 (Z.ltb_ge _ _)) by lia.
Qed.

Lemma parse_uint_loop_uint (d : Decimal.uint) (acc : Z) :
  (0 ≤ acc)%Z → (uint_value d acc ≤ 18446744073709551615)%Z →
  strconv.parse_uint_loop (NilEmpty.string_of_uint d) acc = (uint_value d acc, None).
Proof.
  revert acc. induction d; intros acc Hacc Hmax; [done|..];
    cbn [NilEmpty.string_of_uint uint_value] in *;
    match goal with
    | H : (uint_value ?d ?n1 ≤ _)%Z |- _ =>
        pose proof (uint_value_ge d n1 ltac:(lia)) as Hge
    end;
    (rewrite parse_uint_loop_digit; [|reflexivity|lia|eval_digit; lia]);
    eval_digit; rewrite IHd by lia; do 2 f_equal; lia.
Qed.

Lemma uint_value_acc (d : Decimal.uint) (acc : positive) :
  uint_value d (Z.pos acc) = Z.pos (Pos.of_uint_acc d acc).
Proof.
  revert acc. induction d; intros acc; simpl; [done|..];
    rewrite <- IHd; f_equal; lia.
Qed.

Lemma uint_value_of_uint (d : Decimal.uint) :
  uint_value d 0 = Z.of_N (Pos.of_uint d).
Proof.
  induction d; simpl; try done;
    match goal with
    | |- uint_value ?d ?k = _ => apply (uint_value_acc d (Z.to_pos k))
    end.
Qed.

Lemma uint_value_to_uint (p : positive) : uint_value (Pos.to_uint p) 0 = Z.pos p.
Proof. by rewrite uint_value_of_uint, Unsigned.of_to. Qed.

Lemma digits_shape (u : Decimal.uint) :
  u ≠ Decimal.Nil →
  ∃ c rest, NilEmpty.string_of_uint u = String c rest ∧
            strconv.is_sign c = false ∧ Ascii.eqb c "-" = false.
Proof. destruct u; [done|..]; intros _; by eexists _, _. Qed.

Lemma Atoi_digits (u : Decimal.uint) :
  u ≠ Decimal.Nil → (uint_value u 0 ≤ goint.MaxInt)%Z →
  strconv.Atoi (NilEmpty.string_of_uint u) = (uint_value u 0, None).
Proof.
  intros Hu Hmax. destruct (digits_shape u Hu) as (c & rest & Hs & Hsign & Hminus).
  pose proof (uint_value_ge u 0 ltac:(done)) as Hge.
  unfold goint.MaxInt, goint.intSize in Hmax.
  unfold strconv.Atoi. destruct (_ && _).
  - rewrite Hs. cbv beta iota zeta. rewrite Hsign, Hminus. cbn [andb]. cbv iota.
    rewrite <- Hs. by rewrite small_digits_uint.
  - unfold strconv.ParseInt. rewrite Hs. cbv beta iota zeta. rewrite Hsign, Hminus.
    cbv iota. rewrite <- Hs.
    unfold strconv.ParseUint. rewrite Hs at 1. cbv iota.
    rewrite parse_uint_loop_uint by lia.
    cbn [negb andb]. change (2 ^ 63)%Z with 9223372036854775808%Z.
    by rewrite (proj2 (Z.leb_gt _ _)) by lia.
Qed.

Lemma Atoi_minus_digits (u : Decimal.uint) :
  u ≠ Decimal.Nil → (uint_value u 0 ≤ - goint.MinInt)%Z →
  strconv.Atoi (String "-" (NilEmpty.string_of_uint u)) = (- uint_value u 0, None)%Z.
Proof.
  intros Hu Hmax. destruct (digits_shape u Hu) as (c & rest & Hs & Hsign & Hminus).
  pose proof (uint_value_ge u 0 ltac:(done)) as Hge.
  unfold goint.MinInt, goint.intSize in Hmax.
  unfold strconv.Atoi. destruct (_ && _).
  - cbv beta iota zeta. change (strconv.is_sign "-") with true. cbv iota.
    assert ((String.length (NilEmpty.string_of_uint u) <? 1) = false) as ->.
    { by rewrite Hs. }
    cbn [andb]. cbv iota. rewrite small_digits_uint.
    by change (Ascii.eqb "-" "-") with true.
  - unfold strconv.ParseInt. cbv beta iota zeta.
    change (strconv.is_sign "-") with true.
    change (Ascii.eqb "-" "-") with true. cbv iota.
    unfold strconv.ParseUint. rewrite Hs at 1. cbv iota.
    rewrite parse_uint_loop_uint by lia.
    cbn [negb andb]. change (2 ^ 63)%Z with 9223372036854775808%Z.
    by rewrite (proj2 (Z.ltb_ge _ _)) by lia.
Qed.

Lemma Atoi_d (z : Z) :
  (goint.MinInt ≤ z ≤ goint.MaxInt)%Z → strconv.Atoi (fmt.d z) = (z, None).
Proof.
  intros Hz. unfold fmt.d. destruct z as [|p|p]; [done|..]; simpl.
  - pose proof (Unsigned.to_uint_nonnil p) as Hnil.
    assert (NilZero.string_of_uint (Pos.to_uint p) =
            NilEmpty.string_of_uint (Pos.to_uint p)) as ->.
    { unfold NilZero.string_of_uint. by destruct (Pos.to_uint p). }
    rewrite Atoi_digits; rewrite ?uint_value_to_uint; [done|done|lia].
  - pose proof (Unsigned.to_uint_nonnil p) as Hnil.
    assert (NilZero.string_of_uint (Pos.to_uint p) =
            NilEmpty.string_of_uint (Pos.to_uint p)) as ->.
    { unfold NilZero.string_of_uint. by destruct (Pos.to_uint p). }
    rewrite Atoi_minus_digits; rewrite ?uint_value_to_uint; [done|done|lia].
Qed.

(** X14. A size written in decimal is read back as the number it denotes, over
    the whole range of an [int]; both handlers then take a size from 1 to
    2000 as it is, route every larger one to the oversize branch, and replace
    zero and every negative size by 100. *)
Theorem decimal_size_is_read_back (v : version) (z : Z) :
  (goint.MinInt ≤ z ≤ goint.MaxInt)%Z →
  strconv.Atoi (fmt.d z) = (z, None) ∧
  ((z ≤ 0)%Z → sizing v (fmt.d z) = Sized 100) ∧
  ((1 ≤ z ≤ 2000)%Z → sizing v (fmt.d z) = Sized z) ∧
  ((2000 < z)%Z → sizing v (fmt.d z) = Oversize).
Proof.
  intros Hz. pose proof (Atoi_d z Hz) as Hparse. split; [done|].
  split_and!.
  - intros Hle. apply (sizing_default v _ z None Hparse); [by right|right; lia].
  - intros [H1 H2]. destruct v; unfold sizing, sizing_v1, sizing_v2; rewrite Hparse.
    + rewrite (proj2 (Z.ltb_ge _ _)) by lia.
      rewrite (bool_decide_eq_false_2 (None ≠ None)) by (by intros []).
      by rewrite (proj2 (Z.leb_gt _ _)) by lia.
    + rewrite (bool_decide_eq_false_2 (None ≠ None)) by (by intros []).
      rewrite (proj2 (Z.leb_gt _ _)) by lia. simpl.
      by rewrite (proj2 (Z.ltb_ge _ _)) by lia.
  - intros Hgt. by apply (oversize_sizing v _ z).
Qed.

Lemma decimal_size_is_read_back_witness :
  strconv.Atoi (fmt.d 1500) = (1500%Z, None) ∧
  ((1500 ≤ 0)%Z → sizing V1 (fmt.d 1500) = Sized 100) ∧
  ((1 ≤ 1500 ≤ 2000)%Z → sizing V1 (fmt.d 1500) = Sized 1500) ∧
  ((2000 < 1500)%Z → sizing V1 (fmt.d 1500) = Oversize).
Proof.
  apply (decimal_size_is_read_back V1 1500). vm_compute. split; discriminate.
Defined.

(** ** How long a cancelled row goroutine keeps running *)

Lemma multiplyRow_step_cancelled (a b : matrix) (row size : nat)
    (result result' : matrix) (p p' : pc) :
  multiplyRow_step true a b row size result p = Some (result', p') →
  steps_left_cancelled size p' ≤ steps_left_cancelled size p - 1.
Proof.
  destruct p as [j|j k|]; simpl.
  - case_decide; intros [= _ <-]; simpl; lia.
  - case_decide as Hk; [|intros [= _ <-]; simpl; lia].
    destruct (a !! row) as [ra|]; [|done]. simpl.
    destruct (ra !! k) as [x|]; [|done]. simpl.
    destruct (b !! k) as [rb|]; [|done]. simpl.
    destruct (rb !! j) as [y|]; [|done]. simpl.
    destruct (result !! row) as [rr|]; [|done]. simpl.
    destruct (rr !! j) as [acc|]; [|done]. simpl.
    intros [= _ <-]. simpl. lia.
  - intros [= _ <-]. simpl. lia.
Qed.

Lemma mrun_cancelled_left (a b : matrix) (size : nat) (sched : list mevent) :
  ∀ m s', mrun a b size sched (MSys true m) = Some s' →
          ctx_done s' = true ∧
          ∀ i p, m_tasks m !! i = Some p →
                 ∃ p', m_tasks (work s') !! i = Some p' ∧
                       steps_left_cancelled size p' ≤
                         steps_left_cancelled size p - turns i sched.
Proof.
  induction sched as [|ev sched IH]; intros m s'.
  { intros [= <-]. split; [done|]. intros i p Hp. exists p. split; [done|simpl; lia]. }
  destruct ev as [|row].
  { intros Hrun. apply (IH m s') in Hrun as [? Hleft]. split; [done|].
    intros i p Hp. destruct (Hleft i p Hp) as (p' & ? & ?). by exists p'. }
  change (mrun a b size (Run row :: sched) (MSys true m))
    with (s1 ← (m' ← run_task true a b size row m; Some (MSys true m'));
          mrun a b size sched s1).
  change (turns ?i (Run row :: sched))
    with ((if Nat.eqb row i then 1 else 0) + turns i sched).
  unfold run_task.
  destruct (m_tasks m !! row) as [q|] eqn:Hq; simpl.
  - destruct (multiplyRow_step true a b row size (m_result m) q)
      as [[r q']|] eqn:Hstep; [|done].
    simpl. intros Hrun. apply IH in Hrun as [? Hleft]. split; [done|].
    simpl in Hleft. intros i p Hp. destruct (Nat.eqb_spec row i) as [->|Hne].
    + rewrite Hq in Hp. injection Hp as <-.
      destruct (Hleft i q') as (p' & ? & ?).
      { apply list_lookup_insert_eq. by eapply lookup_lt_Some. }
      exists p'. split; [done|].
      pose proof (multiplyRow_step_cancelled _ _ _ _ _ _ _ _ Hstep). lia.
    + destruct (Hleft i p) as (p' & ? & ?); [by rewrite list_lookup_insert_ne|].
      by exists p'.
  - intros Hrun. apply IH in Hrun as [? Hleft]. split; [done|].
    intros i p Hp. destruct (Nat.eqb_spec row i) as [->|Hne]; [congruence|].
    by apply Hleft.
Qed.

(** X15. Cancellation is observed within one column: once the context is
    cancelled, a row goroutine that is given size + 2 more turns has returned,
    wherever it was and whatever the matrices are, unless the call panics. *)
Theorem cancelled_row_returns_within_a_column (a b : matrix) (size : nat)
    (sched : list mevent) (s s' : msys) (i : nat) (p : pc) :
  ctx_done s = true → mrun a b size sched s = Some s' →
  m_tasks (work s) !! i = Some p → size + 2 ≤ turns i sched →
  m_tasks (work s') !! i = Some Returned.
Proof.
  intros Hd Hrun Hp Hturns.
  destruct s as [d m]. simpl in Hd, Hp. subst d.
  destruct (mrun_cancelled_left a b size sched m s' Hrun) as [_ Hleft].
  destruct (Hleft i p Hp) as (p' & Hp' & Hle). rewrite Hp'. f_equal.
  assert (steps_left_cancelled size p ≤ size + 2) by (destruct p; simpl; lia).
  destruct p'; simpl in Hle; [lia..|done].
Qed.

Lemma cancelled_row_returns_within_a_column_witness :
  m_tasks (work (MSys true (MState [[19; 22]; [0; 0]]%Z [Returned; AtSelect 0])))
    !! 0 = Some Returned.
Proof.
  refine (cancelled_row_returns_within_a_column
            [[1; 2]; [3; 4]]%Z [[5; 6]; [7; 8]]%Z 2
            [Run 0; Run 0; Run 0; Run 0]
            (MSys true (MState [[19; 0]; [0; 0]]%Z [InLoop 1 0; AtSelect 0]))
            (MSys true (MState [[19; 22]; [0; 0]]%Z [Returned; AtSelect 0]))
            0 (InLoop 1 0) _ _ _ _).
  - reflexivity.
  - reflexivity.
  - reflexivity.
  - simpl. lia.
Defined.

(** ** Storage failures *)

(** X16. Where the handler persists requests, a job whose size passes the gate
    and whose [storeRequestInfo] fails never generates a matrix nor enters the
    multiplier: its sizing step answers with status 500 and the storage line
    and finishes the job, leaving [activeRequests] and all contexts as they
    are, so that the job it superseded stays cancelled and its own entry
    stays in the map. *)
Theorem storage_failure_skips_the_product (v : version) (sched : list event)
    (st : server) (j : nat) (jb : job) (n : Z) :
  run v sched init = Some st → jobs st !! j = Some jb →
  sizing v (size_param (j_req jb)) = Sized n →
  persists v && store_fails (j_req jb) = true →
  on_compute_path (j_pc jb) = false ∧
  (j_pc jb = Finished → j_resp jb = Response 500 msg_store) ∧
  (j_pc jb = AtSizing →
     ∃ st', step v (Handler j) st = Some st' ∧
            jobs st' !! j = Some (Job (j_req jb) Finished (Response 500 msg_store)) ∧
            activeRequests st' = activeRequests st ∧ cancelled st' = cancelled st).
Proof.
  intros Hrun Hj Hs Hp.
  pose proof (run_sinv v sched init st (sinv_init v) Hrun) as (_ & _ & Hjobs).
  specialize (Hjobs j jb Hj). unfold job_inv in Hjobs.
  assert (∀ n', ¬ computes v (j_req jb) n') as Hnc.
  { intros n' [_ ?]. congruence. }
  split_and!.
  - destruct (j_pc jb); try done.
    + destruct Hjobs as (? & _). by destruct (Hnc matrixSize).
    + destruct Hjobs as (? & _). by destruct (Hnc matrixSize).
  - intros Hpc. rewrite Hpc in Hjobs.
    destruct Hjobs as [(? & _)|[(n' & _ & _ & ?)|[(n' & ? & _)|(n' & ? & _)]]];
      [congruence|done|by destruct (Hnc n')..].
  - intros Hpc. rewrite Hpc in Hjobs.
    assert (j < length (jobs st)) as Hlt by (by eapply lookup_lt_Some).
    rewrite (step_handler _ _ _ _ Hj). eexists. split; [done|].
    unfold handler_step. rewrite Hpc, Hs, Hp, Hjobs.
    split_and!; [|done..]. by rewrite lookup_set_job, decide_True.
Qed.

Lemma storage_failure_skips_the_product_witness :
  on_compute_path (j_pc job_unstored) = false ∧
  (j_pc job_unstored = Finished → j_resp job_unstored = Response 500 msg_store) ∧
  (j_pc job_unstored = AtSizing →
     ∃ st', step V2 (Handler 0) st_unstored = Some st' ∧
            jobs st' !! 0 =
              Some (Job (j_req job_unstored) Finished (Response 500 msg_store)) ∧
            activeRequests st' = activeRequests st_unstored ∧
            cancelled st' = cancelled st_unstored).
Proof.
  apply (storage_failure_skips_the_product V2 sched_unstored st_unstored 0
           job_unstored 3).
  - vm_compute. reflexivity.
  - reflexivity.
  - vm_compute. reflexivity.
  - reflexivity.
Defined.

(** ** An oversize job whose registration was overwritten *)

(** X17. An oversize job that has registered, whose context is open and whose
    entry in [activeRequests] has been overwritten, never answers: whatever
    requests arrive afterwards, from its own address or another, and however
    the handlers are scheduled, it stays before or at the wait on its context
    and its response stays unwritten. *)
Theorem overwritten_oversize_job_never_answers (v : version)
    (sched sched' : list event) (st st' : server) (j : nat) (jb : job) :
  run v sched init = Some st → jobs st !! j = Some jb →
  sizing v (size_param (j_req jb)) = Oversize →
  j_pc jb = AtSizing ∨ j_pc jb = AwaitingCancel →
  j ∉ cancelled st → activeRequests st !! key jb ≠ Some j →
  run v sched' st = Some st' →
  ∃ jb', jobs st' !! j = Some jb' ∧ j_req jb' = j_req jb ∧
         (j_pc jb' = AtSizing ∨ j_pc jb' = AwaitingCancel) ∧
         j_resp jb' = j_resp jb.
Proof.
  intros Hrun Hj Hsz Hpc Hopen Hlost.
  pose proof (run_sinv v sched init st (sinv_init v) Hrun) as Hinv. clear Hrun.
  revert st jb Hj Hsz Hpc Hopen Hlost Hinv.
  induction sched' as [|ev sched' IH];
    intros st jb Hj Hsz Hpc Hopen Hlost Hinv; simpl.
  { intros [= <-]. by exists jb. }
  destruct (step v ev st) as [st1|] eqn:Hstep; [|done]. simpl. intros Hrun'.
  assert (has_registered (j_pc jb) = true) as Hr by (by destruct Hpc as [->| ->]).
  destruct (step_orphan v ev st st1 j jb Hinv Hstep Hj Hr Hopen Hlost) as [Ho Hl].
  destruct (step_job v ev st st1 j jb Hstep Hj) as (jb1 & Hj1 & Htr).
  assert (ctx_is_done j st = false) as Hd by (by apply bool_decide_eq_false).
  rewrite Hd in Htr. pose proof (job_trans_req _ _ _ _ Htr) as [Hreq _].
  assert (key jb1 = key jb) as Hkey by (unfold key; by rewrite Hreq).
  assert ((j_pc jb1 = AtSizing ∨ j_pc jb1 = AwaitingCancel) ∧ j_resp jb1 = j_resp jb)
    as [Hpc1 Hresp1].
  { destruct Htr; simpl in *; destruct Hpc; try done; try congruence; auto. }
  destruct (IH st1 jb1) as (jb' & ? & ? & ? & ?); try done.
  - by rewrite Hreq.
  - by rewrite Hkey.
  - by eapply step_sinv.
  - exists jb'. split_and!; [done|congruence|done|congruence].
Qed.

Lemma overwritten_oversize_job_never_answers_witness :
  ∃ jb', jobs st_large_later !! 0 = Some jb' ∧ j_req jb' = req_large ∧
         (j_pc jb' = AtSizing ∨ j_pc jb' = AwaitingCancel) ∧
         j_resp jb' = fresh.
Proof.
  refine (overwritten_oversize_job_never_answers V2 sched_large_overwritten
            sched_large_later st_large_overwritten st_large_later 0
            (Job req_large AtSizing fresh) _ _ _ _ _ _ _).
  - vm_compute. reflexivity.
  - reflexivity.
  - vm_compute. reflexivity.
  - by left.
  - vm_compute. discriminate.
  - vm_compute. discriminate.
  - vm_compute. reflexivity.
Defined.

(** ** What belongs to a job *)

(** X18. The matrices, the program counters and the response writer of a job are
    touched by its own goroutines only: a run in which no goroutine of job
    [j] takes a step leaves the job as it was, whatever the other handlers and
    their row goroutines do, even when one of them cancels its context. *)
Theorem job_is_changed_by_its_own_goroutines_only (v : version)
    (sched : list event) (st st' : server) (j : nat) (jb : job) :
  run v sched st = Some st' → jobs st !! j = Some jb →
  forallb (λ ev, negb (event_of j ev)) sched = true →
  jobs st' !! j = Some jb.
Proof.
  revert st. induction sched as [|ev sched IH]; intros st; simpl.
  { by intros [= <-]. }
  destruct (step v ev st) as [st1|] eqn:Hstep; [|done]. simpl.
  intros Hrun Hj [Hev Hrest]%andb_prop. apply (IH st1); [done| |done].
  destruct ev as [r|j0|j0 row]; simpl in Hstep, Hev.
  - injection Hstep as <-. simpl. by apply lookup_app_l_Some.
  - destruct (Nat.eqb_spec j0 j) as [|Hne]; [done|].
    rewrite (step_frame v j0 j st st1); [done|done|congruence].
  - destruct (Nat.eqb_spec j0 j) as [|Hne]; [done|].
    destruct (jobs st !! j0) as [jb0|] eqn:Hj0; [|by injection Hstep as <-].
    unfold row_step in Hstep. destruct (j_pc jb0); try by injection Hstep as <-.
    destruct (run_task _ _ _ _ _ _) as [m'|]; [|done]. injection Hstep as <-.
    rewrite lookup_set_job by (by eapply lookup_lt_Some). by rewrite decide_False.
Qed.

Lemma job_is_changed_by_its_own_goroutines_only_witness :
  jobs st_others !! 0 = Some job_at_report.
Proof.
  apply (job_is_changed_by_its_own_goroutines_only V2 sched_others st_at_report).
  - vm_compute. reflexivity.
  - reflexivity.
  - reflexivity.
Defined.
